(** * Identifier conversion, mapping store, identifier minting and graph
    rewriting of [modules/mapping.py] and [modules/replace_URIs.py].

    The Python classes are embedded shallowly: dictionaries are [gmap]s,
    sets are [gset]s, exceptions are the constructors of [exn], and a
    method that mutates [self] is a function from the object's state to an
    outcome paired with the state it leaves behind. *)

From Stdlib Require Import ZArith Lia Ascii.
From stdpp Require Import base option list gmap strings sorting pretty.

Local Open Scope Z_scope.

(** ** Exceptions and outcomes *)

(** The [assert] statements of the source, one constructor per site. *)
Inductive assertion : Type :=
| DomainHasWhitespace          (* mapping.py:176 *)
| DomainCodeOutOfBounds        (* mapping.py:177 *)
| DomainAlreadyRegistered      (* mapping.py:179 *)
| DomainCodeAlreadyRegistered  (* mapping.py:180 *)
| MissingObjectId              (* mapping.py:385 *)
| NoDomainGiven                (* mapping.py:512 *)
| DomainCodeNotRegistered      (* mapping.py:517 *)
| MintCeiling.                 (* mapping.py:555 *)

(** Python exceptions raised by the modelled code.  [UnknownPrefix] and
    [RecordExists] are subclasses of [KeyError], [InvalidURI] of
    [ValueError]. *)
Inductive exn : Type :=
| UnknownPrefix (key : string)
| RecordExists (key : string)
| InvalidURI (key : string)
| KeyError (key : string)
| ValueError
| TypeError
| AttributeError
| AssertionError (a : assertion).

(** [except KeyError] catches the class and its subclasses. *)
Definition is_KeyError (e : exn) : bool :=
  match e with
  | UnknownPrefix _ | RecordExists _ | KeyError _ => true
  | _ => false
  end.

Inductive result (A : Type) : Type :=
| Ok (a : A)
| Raise (e : exn).
Arguments Ok {A} a.
Arguments Raise {A} e.

#[global] Instance result_ret : MRet result := λ A a, Ok a.
#[global] Instance result_bind : MBind result := λ A B f r,
  match r with
  | Ok a => f a
  | Raise e => Raise e
  end.
#[global] Instance result_fmap : FMap result := λ A B f r,
  match r with
  | Ok a => Ok (f a)
  | Raise e => Raise e
  end.

(** ** Strings *)

(** [strip_prefix ns u] is [Some l] exactly when [u = ns ++ l]
    ([u.startswith(ns)] together with [u[len(ns):]]). *)
Fixpoint strip_prefix (ns u : string) : option string :=
  match ns with
  | EmptyString => Some u
  | String a ns' =>
      match u with
      | EmptyString => None
      | String b u' => if decide (a = b) then strip_prefix ns' u' else None
      end
  end.

(** [s.split(":", 1)] unpacked into two names: [None] stands for the
    [ValueError] of a string without delimiter. *)
Fixpoint split_colon (s : string) : option (string * string) :=
  match s with
  | EmptyString => None
  | String a s' =>
      if decide (a = ":"%char) then Some (EmptyString, s')
      else '(p, i) ← split_colon s'; Some (String a p, i)
  end.

Fixpoint has_colon (s : string) : bool :=
  match s with
  | EmptyString => false
  | String a s' => if decide (a = ":"%char) then true else has_colon s'
  end.

(** Python truthiness of a [str]. *)
Definition nonempty (s : string) : bool :=
  match s with EmptyString => false | _ => true end.

(** [str.isspace] on the characters a [string] can hold (code points
    below 256). *)
Definition is_space (a : ascii) : bool :=
  let n := N_of_ascii a in
  ((9 <=? n) && (n <=? 13) || (28 <=? n) && (n <=? 32)
   || (n =? 133) || (n =? 160))%N.

Fixpoint all_space (s : string) : bool :=
  match s with
  | EmptyString => true
  | String a s' => is_space a && all_space s'
  end.

Fixpoint lstrip (s : string) : string :=
  match s with
  | EmptyString => EmptyString
  | String a s' => if is_space a then lstrip s' else s
  end.

(** [str.strip()]. *)
Definition strip (s : string) : string :=
  String.rev (lstrip (String.rev (lstrip s))).

(** [str.rstrip()]. *)
Definition rstrip (s : string) : string :=
  String.rev (lstrip (String.rev s)).

(** [str.split()] without argument: the maximal runs of characters that
    are not white space. *)
Fixpoint split_ws_go (cur : option string) (s : string) : list string :=
  match s with
  | EmptyString => option_list (String.rev <$> cur)
  | String a s' =>
      if is_space a
      then option_list (String.rev <$> cur) ++ split_ws_go None s'
      else split_ws_go (Some (String a (default EmptyString cur))) s'
  end.
Definition split_ws : string → list string := split_ws_go None.

(** [s.split("\n")]: always at least one piece. *)
Fixpoint split_nl_go (cur : string) (s : string) : list string :=
  match s with
  | EmptyString => [String.rev cur]
  | String a s' =>
      if decide (a = "010"%char)
      then String.rev cur :: split_nl_go EmptyString s'
      else split_nl_go (String a cur) s'
  end.
Definition split_nl : string → list string := split_nl_go EmptyString.

(** ["\t".join(l)]. *)
Fixpoint join_tab (l : list string) : string :=
  match l with
  | [] => EmptyString
  | [x] => x
  | x :: l' => x +:+ String "009"%char (join_tab l')
  end.

(** [s.replace(old, new)]: every non-overlapping occurrence of [old],
    left to right.  [skip] counts the characters of a matched occurrence
    still to be dropped.  An empty [old] puts [new] before every character
    and at the end. *)
Fixpoint replace_go (old new : string) (skip : nat) (s : string) : string :=
  match s with
  | EmptyString => EmptyString
  | String a s' =>
      match skip with
      | S k => replace_go old new k s'
      | O =>
          match strip_prefix old s with
          | Some _ => new +:+ replace_go old new (String.length old - 1) s'
          | None => String a (replace_go old new O s')
          end
      end
  end.

Fixpoint intersperse (new : string) (s : string) : string :=
  match s with
  | EmptyString => new
  | String a s' => new +:+ String a (intersperse new s')
  end.

Definition replace (s old new : string) : string :=
  match old with
  | EmptyString => intersperse new s
  | _ => replace_go old new O s
  end.

(** *** Integers and their decimal forms *)

(** A Python value passed where the code calls [int(...)] on it: an
    [int] or a [str]. *)
Inductive pyint : Type :=
| PyInt (n : Z)
| PyStr (s : string).

Definition digit_of (a : ascii) : option Z :=
  Z.of_nat <$> Ascii.is_nat a.

(** The digits of [int(str)]: decimal digits, single underscores between
    digits, then optional white space to the end. *)
Fixpoint int_digits (s : string) (acc : Z) (after_digit : bool) : option Z :=
  match s with
  | EmptyString => if after_digit then Some acc else None
  | String a s' =>
      match digit_of a with
      | Some d => int_digits s' (10 * acc + d) true
      | None =>
          if negb after_digit then None
          else if decide (a = "_"%char) then int_digits s' acc false
          else if is_space a && all_space s' then Some acc
          else None
      end
  end.

(** [int(s)] for a [str]: [None] is [ValueError]. *)
Definition int_of_string (s : string) : option Z :=
  match lstrip s with
  | String "+"%char t => int_digits t 0 false
  | String "-"%char t => Z.opp <$> int_digits t 0 false
  | t => int_digits t 0 false
  end.

Definition py_int (v : pyint) : result Z :=
  match v with
  | PyInt n => Ok n
  | PyStr s =>
      match int_of_string s with
      | Some n => Ok n
      | None => Raise ValueError
      end
  end.

Fixpoint zeros (n : nat) : string :=
  match n with
  | O => EmptyString
  | S k => String "0"%char (zeros k)
  end.

(** ["{:0w}".format(n)]: sign-aware zero padding to width [w]. *)
Definition zfmt (w : nat) (n : Z) : string :=
  let d := pretty (Z.abs_N n) in
  if (n <? 0)%Z
  then String "-"%char (zeros (w - 1 - String.length d) +:+ d)
  else zeros (w - String.length d) +:+ d.

(** ** The prefix table of [curies.Converter]

    [curies] is a third-party package; [Converter2] inherits [compress],
    [expand], [parse_uri] and [parse_curie] from it and calls them through
    [super()].  They are modelled as the package documents them for a
    converter without synonyms: [prefix_map] sends a prefix to its
    namespace (URI prefix), a URI is parsed by the longest namespace that
    is a prefix of it, a CURIE is split at its first colon. *)

Abbreviation prefix_map := (gmap string string).

Definition longer_match (u : string) (best : option (string * string))
    (kv : string * string) : option (string * string) :=
  match strip_prefix kv.2 u with
  | None => best
  | Some _ =>
      match best with
      | Some b =>
          if decide (String.length b.2 < String.length kv.2)%nat
          then Some kv else best
      | None => Some kv
      end
  end.

(** [trie.longest_prefix_item(uri)]: the entry whose namespace is the
    longest prefix of [u]. *)
Definition longest_prefix_item (pm : prefix_map) (u : string)
    : option (string * string) :=
  foldl (longer_match u) None (map_to_list pm).

(** [curies.Converter.parse_uri]: [(prefix, identifier)], [None] for the
    pair [(None, None)]. *)
Definition parse_uri (pm : prefix_map) (u : string) : option (string * string) :=
  '(p, ns) ← longest_prefix_item pm u;
  l ← strip_prefix ns u;
  Some (p, l).

(** [curies.Converter.parse_curie]. *)
Definition parse_curie (c : string) : result (string * string) :=
  match split_colon c with
  | Some pi => Ok pi
  | None => Raise ValueError
  end.

(** [curies.Converter.format_curie]. *)
Definition format_curie (p i : string) : string := p +:+ ":" +:+ i.

(** [curies.Converter.compress] with its defaults: the CURIE when both
    parts are truthy, otherwise [None]. *)
Definition lib_compress (pm : prefix_map) (u : string) : option string :=
  match parse_uri pm u with
  | Some (p, i) => if nonempty p && nonempty i then Some (format_curie p i) else None
  | None => None
  end.

(** [curies.Converter.expand] with its defaults: [prefix_map[prefix] +
    identifier] when the prefix is known and the sum is truthy, otherwise
    [None]; a string without colon raises [ValueError]. *)
Definition lib_expand (pm : prefix_map) (c : string) : result (option string) :=
  '(p, i) ← parse_curie c;
  match pm !! p with
  | Some ns => if nonempty (ns +:+ i) then Ok (Some (ns +:+ i)) else Ok None
  | None => Ok None
  end.

(** ** [Converter2] *)

Inductive input_type : Type := uri | curie.
Inductive mode : Type := safe | fast.

Section Converter2.
(** [validators.url], a third-party predicate on strings. *)
Variable valid_url : string → bool.
Variable pm : prefix_map.

(** [None in prefix_map] is false; a found prefix is looked up. *)
Definition uri_prefix_known (v : string) : bool :=
  match parse_uri pm v with
  | Some (p, _) => bool_decide (is_Some (pm !! p))
  | None => false
  end.

Definition curie_prefix_known (v : string) : bool :=
  match parse_curie v with
  | Ok (p, _) => bool_decide (is_Some (pm !! p))
  | Raise _ => false
  end.

(** [Converter2.validate] (mapping.py:107-124). *)
Definition validate (v : string) : result input_type :=
  if uri_prefix_known v then
    if valid_url v then Ok uri else Raise (InvalidURI v)
  else if curie_prefix_known v then Ok curie
  else Raise (UnknownPrefix v).

(** [Converter2.compress] in mode "fast" (mapping.py:64-70); never
    raises. *)
Definition compress_fast (u : string) : string :=
  if nonempty u then
    match lib_compress pm u with
    | Some c => if nonempty c then c else u
    | None => u
    end
  else "".

(** [Converter2.compress] in mode "safe" (mapping.py:71-76); the result
    is [None] when the library finds nothing to format. *)
Definition compress_safe (u : string) : result (option string) :=
  t ← validate u;
  match t with
  | curie => Ok (Some u)
  | uri => Ok (lib_compress pm u)
  end.

(** [Converter2.expand] in mode "fast" (mapping.py:85-91). *)
Definition expand_fast (c : string) : string :=
  if nonempty c then
    match lib_expand pm c with
    | Ok (Some u) => u
    | Ok None => c
    | Raise _ => c
    end
  else "".

(** [Converter2.expand] in mode "safe" (mapping.py:92-97).  The library
    would hand back [None] for an empty expansion; [validate] answers
    "curie" only when no namespace is a prefix of the value, hence when
    no namespace is empty, so that branch is dead
    (lemma [expand_safe_curie_some]) and is closed with [TypeError]. *)
Definition expand_safe (c : string) : result string :=
  t ← validate c;
  match t with
  | uri => Ok c
  | curie =>
      o ← lib_expand pm c;
      match o with
      | Some u => Ok u
      | None => Raise TypeError
      end
  end.

Definition compress (m : mode) (u : string) : result (option string) :=
  match m with
  | fast => Ok (Some (compress_fast u))
  | safe => compress_safe u
  end.

Definition expand (m : mode) (c : string) : result string :=
  match m with
  | fast => Ok (expand_fast c)
  | safe => expand_safe c
  end.

(** A [None] handed to a method that parses its argument fails inside
    the library. *)
Definition of_py (o : option string) : result string :=
  match o with
  | Some s => Ok s
  | None => Raise TypeError
  end.

(** [Converter2.parse] (mapping.py:99-105). *)
Definition parse (v : string) : result (option (string * string)) :=
  t ← validate v;
  match t with
  | curie => Some <$> parse_curie v
  | uri => Ok (parse_uri pm v)
  end.

(** [Converter2.standardize] (mapping.py:126-128). *)
Definition standardize (c : string) : result (option string) :=
  e ← expand safe c; compress safe e.

End Converter2.

(** ** [DomainCodes] (mapping.py:146-201) *)

Record DomainCodes : Type := mkDomainCodes {
  dc_data : gmap string string;       (* UserDict.data: domain -> code *)
  reverse_map : gmap string string    (* _reverse_map: code -> domain *)
}.

Module DomainCodes.

(** [_format_domain_code]. *)
Definition format_domain_code (c : pyint) : result string :=
  n ← py_int c; Ok (zfmt 2 n).

(** [len(domain.split()) == 1 and len(domain) == len(domain.strip())]. *)
Definition domain_ok (domain : string) : bool :=
  bool_decide (length (split_ws domain) = 1%nat)
  && bool_decide (String.length domain = String.length (strip domain)).

(** [__setitem__]. *)
Definition setitem (domain : string) (c : pyint) (dc : DomainCodes)
    : result unit * DomainCodes :=
  match format_domain_code c with
  | Raise e => (Raise e, dc)
  | Ok domain_code =>
      if decide (dc_data dc !! domain = Some domain_code) then (Ok (), dc)
      else if negb (domain_ok domain)
      then (Raise (AssertionError DomainHasWhitespace), dc)
      else
        match py_int (PyStr domain_code) with
        | Raise e => (Raise e, dc)
        | Ok n =>
            if negb ((0 <=? n) && (n <? 100))
            then (Raise (AssertionError DomainCodeOutOfBounds), dc)
            else if decide (is_Some (dc_data dc !! domain))
            then (Raise (AssertionError DomainAlreadyRegistered), dc)
            else if decide (is_Some (reverse_map dc !! domain_code))
            then (Raise (AssertionError DomainCodeAlreadyRegistered), dc)
            else (Ok (),
                  {| dc_data := <[domain := domain_code]> (dc_data dc);
                     reverse_map := <[domain_code := domain]> (reverse_map dc) |})
        end
  end.

Definition empty : DomainCodes := {| dc_data := ∅; reverse_map := ∅ |}.

(** [__init__]: the entries of [domain_codes], in order. *)
Fixpoint load (l : list (string * pyint)) (dc : DomainCodes)
    : result unit * DomainCodes :=
  match l with
  | [] => (Ok (), dc)
  | (domain, c) :: l' =>
      match setitem domain c dc with
      | (Ok _, dc') => load l' dc'
      | (Raise e, dc') => (Raise e, dc')
      end
  end.

Definition init (domain_codes : option (list (string * pyint)))
    : result DomainCodes :=
  match load (default [] domain_codes) empty with
  | (Ok _, dc) => Ok dc
  | (Raise e, _) => Raise e
  end.

(** [get_domain]. *)
Definition get_domain (c : pyint) (dc : DomainCodes) : result string :=
  domain_code ← format_domain_code c;
  match reverse_map dc !! domain_code with
  | Some d => Ok d
  | None => Raise (KeyError domain_code)
  end.

(** [__getitem__] and [get_code]. *)
Definition getitem (domain : string) (dc : DomainCodes) : result string :=
  match dc_data dc !! domain with
  | Some c => Ok c
  | None => Raise (KeyError domain)
  end.
Definition get_code := getitem.

(** The spec's DomainRegistrationConflict: one of the two assertions
    that a domain or a code is already bound. *)
Definition DomainRegistrationConflict (e : exn) : Prop :=
  e = AssertionError DomainAlreadyRegistered
  ∨ e = AssertionError DomainCodeAlreadyRegistered.

(** The two dictionaries mirror each other. *)
Definition consistent (dc : DomainCodes) : Prop :=
  ∀ d c, dc_data dc !! d = Some c ↔ reverse_map dc !! c = Some d.

End DomainCodes.

(** ** [Mapping] (mapping.py:204-498) *)

Definition NN_domain : string := "https://ontology.novonordisk.com/".

(** [Mapping._SSSOM_columns]: all columns, properly ordered. *)
Definition SSSOM_columns : list string :=
  [ "subject_id"; "subject_label"; "subject_category";
    "predicate_id"; "predicate_label"; "predicate_modifier";
    "object_id"; "object_label"; "object_category";
    "mapping_justification";
    "author_id"; "author_label"; "reviewer_id"; "reviewer_label";
    "creator_id"; "creator_label"; "license";
    "subject_type"; "subject_source"; "subject_source_version";
    "object_type"; "object_source"; "object_source_version";
    "mapping_provider"; "mapping_source"; "mapping_cardinality";
    "mapping_tool"; "mapping_tool_version"; "mapping_date";
    "confidence"; "curation_rule"; "curation_rule_text";
    "subject_match_field"; "object_match_field"; "match_string";
    "subject_preprocessing"; "object_preprocessing";
    "semantic_similarity_score"; "semantic_similarity_measure";
    "see_also"; "other"; "comment" ].

(** The default of the [defaults] argument of [Mapping.__init__]. *)
Definition default_defaults : gmap string string :=
  {[ "predicate_id" := "skos:exactMatch";
     "mapping_justification" := "semapv:LexicalMatching" ]}.

(** A record of the store: column name to value. *)
Abbreviation record := (gmap string string).

(** The second argument of [set]: a bare identifier or a metadata dict. *)
Inductive item : Type :=
| ItemStr (s : string)
| ItemDict (d : record).

(** The state of a [Mapping].  [_preamble["curie_map"]] is the very
    dictionary [_curie_converter.prefix_map], so the preamble is kept as
    its other keys and rebuilt around [curie_converter] when dumped. *)
Record Mapping : Type := mkMapping {
  curie_converter : prefix_map;
  data : gmap string record;
  defaults : gmap string string;
  preamble_domain_codes : option (list (string * pyint));
  preamble_other : list (string * string)
}.

(** What [yaml.dump] receives in [save_to_file]. *)
Record Preamble : Type := mkPreamble {
  curie_map : prefix_map;
  domain_codes_key : option (list (string * pyint));
  other_keys : list (string * string)
}.

Definition preamble_of (m : Mapping) : Preamble :=
  {| curie_map := curie_converter m;
     domain_codes_key := preamble_domain_codes m;
     other_keys := preamble_other m |}.

(** [curies.Converter.add_prefix] with its defaults: a prefix or a
    namespace that is already bound is refused with [ValueError]. *)
Definition add_prefix (p ns : string) (pm : prefix_map) : result prefix_map :=
  if decide (is_Some (pm !! p)) then Raise ValueError
  else if decide (map_Exists (λ _ ns', ns' = ns) pm) then Raise ValueError
  else Ok (<[p := ns]> pm).

Definition with_data (m : Mapping) (d : gmap string record) : Mapping :=
  {| curie_converter := curie_converter m; data := d; defaults := defaults m;
     preamble_domain_codes := preamble_domain_codes m;
     preamble_other := preamble_other m |}.

Definition with_converter (m : Mapping) (pm : prefix_map) : Mapping :=
  {| curie_converter := pm; data := data m; defaults := defaults m;
     preamble_domain_codes := preamble_domain_codes m;
     preamble_other := preamble_other m |}.

Module Mapping.
Section Mapping.
Variable valid_url : string → bool.
(** [yaml.dump], a third-party serialiser. *)
Variable yaml_dump : Preamble → string.

(** [{k: v for k, v in item.items() if not self._defaults.get(k) == v}] *)
Definition elide_defaults (m : Mapping) (d : record) : record :=
  filter (λ kv, defaults m !! kv.1 ≠ Some kv.2) d.

(** The record [set] is about to store (mapping.py:384-392). *)
Definition set_value (m : Mapping) (it : item) : result record :=
  match it with
  | ItemDict d =>
      match d !! "object_id" with
      | None => Raise (AssertionError MissingObjectId)
      | Some oid =>
          let value := elide_defaults m d in
          if decide (oid ≠ "") then
            e ← expand valid_url (curie_converter m) safe oid;
            Ok (<["object_id" := e]> value)
          else Ok value
      end
  | ItemStr s =>
      e ← expand valid_url (curie_converter m) safe s;
      Ok {[ "object_id" := e ]}
  end.

(** [Mapping.set] (mapping.py:381-398). *)
Definition set (key : string) (it : item) (m : Mapping)
    : result unit * Mapping :=
  match expand valid_url (curie_converter m) safe key with
  | Raise e => (Raise e, m)
  | Ok ekey =>
      match set_value m it with
      | Raise e => (Raise e, m)
      | Ok value =>
          match data m !! ekey with
          | Some old =>
              if decide (value = old) then (Ok (), m)
              else (Raise (RecordExists ekey), m)
          | None => (Ok (), with_data m (<[ekey := value]> (data m)))
          end
      end
  end.

(** [Mapping._fast_set] (mapping.py:400-407). *)
Definition fast_set (key : string) (it : item) (m : Mapping) : Mapping :=
  let value :=
    match it with
    | ItemDict d => expand_fast (curie_converter m) <$> elide_defaults m d
    | ItemStr s => {[ "object_id" := expand_fast (curie_converter m) s ]}
    end in
  with_data m (<[expand_fast (curie_converter m) key := value]> (data m)).

(** [compress(x, "fast")] on a value that may be [None]. *)
Definition compress_fast_opt (pm : prefix_map) (o : option string) : string :=
  match o with
  | Some u => compress_fast pm u
  | None => ""
  end.

(** [Mapping.get_values] (mapping.py:409-419): [self.data[ekey]] is
    evaluated once per requested column. *)
Definition get_values (key : string) (columns : list string) (m : Mapping)
    : result (list string) :=
  let ekey := expand_fast (curie_converter m) key in
  mapM (M := result) (λ md,
    match data m !! ekey with
    | None => Raise (KeyError ekey)
    | Some r =>
        Ok (compress_fast_opt (curie_converter m)
              (match r !! md with Some v => Some v | None => defaults m !! md end))
    end) columns.

(** [Mapping.__setitem__] (mapping.py:421-426). *)
Definition setitem (key value : string) (m : Mapping) : result unit * Mapping :=
  match expand valid_url (curie_converter m) safe key with
  | Raise e => (Raise e, m)
  | Ok ekey =>
      if decide (is_Some (data m !! ekey)) then (Raise (RecordExists ekey), m)
      else
        match expand valid_url (curie_converter m) safe value with
        | Raise e => (Raise e, m)
        | Ok e => (Ok (), with_data m (<[ekey := {[ "object_id" := e ]}]> (data m)))
        end
  end.

(** [Mapping.__getitem__] (mapping.py:428-430), over
    [UserDict.__getitem__]. *)
Definition getitem (key : string) (m : Mapping) : result string :=
  ekey ← expand valid_url (curie_converter m) safe key;
  match data m !! ekey with
  | None => Raise (KeyError ekey)
  | Some r =>
      match r !! "object_id" with
      | None => Raise (KeyError "object_id")
      | Some oid => Ok (compress_fast (curie_converter m) oid)
      end
  end.

(** [Mapping.__contains__] (mapping.py:432-437). *)
Definition contains (key : string) (m : Mapping) : result bool :=
  match expand valid_url (curie_converter m) safe key with
  | Ok ekey => Ok (bool_decide (is_Some (data m !! ekey)))
  | Raise (UnknownPrefix _) => Ok false
  | Raise e => Raise e
  end.

(** [Mapping.__iter__] (mapping.py:439-442); the order of a [dict] is not
    kept by [gmap], and the one caller below sorts the keys. *)
Definition iter (m : Mapping) : list string :=
  compress_fast (curie_converter m) <$> (map_to_list (data m)).*1.

(** [Mapping.get_uri] (mapping.py:444-446). *)
Definition get_uri (key : string) (m : Mapping) : result string :=
  c ← getitem key m; expand valid_url (curie_converter m) safe c.

(** [Mapping.get_uri2] (mapping.py:448-468): [except UnknownPrefix] comes
    before [except KeyError], and [ex.key] is the value [validate] was
    given. *)
Definition get_uri2 (key : string) (m : Mapping) : result string :=
  match get_uri key m with
  | Ok u => Ok u
  | Raise (UnknownPrefix k) =>
      if decide (k ≠ key) then expand valid_url (curie_converter m) safe key
      else Ok key
  | Raise e =>
      if is_KeyError e then expand valid_url (curie_converter m) safe key
      else Raise e
  end.

(** [Mapping.populate_prefixes] (mapping.py:351-379) with the converter
    of the public sources handed in as [public_converter], a
    [Converter2] over the table [public]; the log is left out.  A
    [parse] that finds no pair cannot be unpacked into [replace]. *)
Fixpoint populate_prefixes (public : prefix_map) (uri_list : list string)
    (m : Mapping) : result unit * Mapping :=
  match uri_list with
  | [] => (Ok (), m)
  | u :: rest =>
      match parse valid_url public u with
      | Raise (UnknownPrefix _) => populate_prefixes public rest m
      | Raise e => (Raise e, m)
      | Ok None => (Raise TypeError, m)
      | Ok (Some (prefix, id)) =>
          let uri_prefix := replace u id "" in
          if decide (is_Some (curie_converter m !! prefix))
          then populate_prefixes public rest m
          else
            match add_prefix prefix uri_prefix (curie_converter m) with
            | Raise e => (Raise e, m)
            | Ok pm' => populate_prefixes public rest (with_converter m pm')
            end
      end
  end.

(** [len(mapping)]. *)
Definition len (m : Mapping) : nat := size (data m).

(** [sorted] on strings. *)
Definition sorted (l : list string) : list string := merge_sort String.le l.

(** The columns collected in [save_to_file] (mapping.py:481-484). *)
Definition used_columns (m : Mapping) : gset string :=
  ⋃ (dom <$> (map_to_list (data m)).*2).
Definition all_columns (m : Mapping) : gset string :=
  used_columns m ∪ dom (defaults m) ∪ {[ "subject_id" ]}.

(** Line 486. *)
Definition save_columns (m : Mapping) : list string :=
  filter (λ c, c ∈ all_columns m) SSSOM_columns.

Definition preamble_lines (m : Mapping) : list string :=
  (λ line, "#" +:+ line +:+ String "010"%char "")
    <$> removelast (split_nl (yaml_dump (preamble_of m))).

Definition save_row (m : Mapping) (columns : list string) (subject_id : string)
    : result string :=
  vs ← get_values subject_id (tail columns) m;
  Ok (join_tab (subject_id :: vs) +:+ String "010"%char "").

(** [Mapping.save_to_file] (mapping.py:470-498): the text written to the
    file by a call that returns, one string per line. *)
Definition save_to_file (m : Mapping) : result (list string) :=
  let columns := save_columns m in
  rows ← mapM (M := result) (save_row m columns) (sorted (iter m));
  Ok (preamble_lines m ++ (join_tab columns +:+ String "010"%char "") :: rows).

End Mapping.
End Mapping.

(** The [preamble] argument of [Mapping.__init__], as parsed from the
    comment block of a file. *)
Record PreambleIn : Type := mkPreambleIn {
  pre_curie_map : option (list (string * string));
  pre_domain_codes : option (list (string * pyint));
  pre_other : list (string * string)
}.

(** How the load of a file ends: with the object, with [InvalidLine], or with
    another exception. *)
Inductive loaded (A : Type) : Type :=
| Loaded (a : A)
| InvalidLine (line : string) (line_nr : Z)
| Failed (e : exn).
Arguments Loaded {A} a.
Arguments InvalidLine {A} line line_nr.
Arguments Failed {A} e.

Module MappingInit.
Section MappingInit.
Variable valid_url : string → bool.

(** Lines 288-290. *)
Fixpoint add_missing_prefixes (l : list (string * string)) (pm : prefix_map)
    : result prefix_map :=
  match l with
  | [] => Ok pm
  | (p, u) :: l' =>
      if decide (is_Some (pm !! p)) then add_missing_prefixes l' pm
      else pm' ← add_prefix p u pm; add_missing_prefixes l' pm'
  end.

(** Lines 297-300. *)
Fixpoint load_mapping (safe_load : bool) (l : list (string * item)) (m : Mapping)
    : result Mapping :=
  match l with
  | [] => Ok m
  | (k, v) :: l' =>
      if safe_load then
        match Mapping.set valid_url k v m with
        | (Ok _, m') => load_mapping safe_load l' m'
        | (Raise e, _) => Raise e
        end
      else load_mapping safe_load l' (Mapping.fast_set k v m)
  end.

(** [Mapping.__init__] (mapping.py:264-300). *)
Definition init (conv : option prefix_map) (mapping : list (string * item))
    (preamble : option PreambleIn) (dflt : gmap string string) (safe_load : bool)
    : result Mapping :=
  let pm0 := default ∅ conv in
  pm ← match preamble with
       | Some pre => add_missing_prefixes (default [] (pre_curie_map pre)) pm0
       | None => Ok pm0
       end;
  load_mapping safe_load mapping
    {| curie_converter := pm; data := ∅; defaults := dflt;
       preamble_domain_codes := preamble ≫= pre_domain_codes;
       preamble_other := default [] (pre_other <$> preamble) |}.

(** *** Reading a file ([Mapping.from_sssom_file], mapping.py:302-349)

    [yaml.safe_load] and [csv.reader] are third-party parsers: the body
    of the file is taken as the rows [csv.reader] yields, one list of
    fields per line. *)

(** Lines 327-333 over the lines of the file as [readline] returns them:
    the text of the preamble, the number of the line that follows it,
    that line (empty at the end of the file) and the lines after it. *)
Fixpoint read_preamble (lines : list string) (preamble : string) (line_nr : Z)
    : string * Z * string * list string :=
  match lines with
  | [] => (preamble, line_nr, "", [])
  | line :: rest =>
      match line with
      | String "#" body =>
          read_preamble rest (preamble +:+ rstrip body +:+ String "010"%char "")
            (line_nr + 1)
      | _ => (preamble, line_nr, line, rest)
      end
  end.

(** [header.index("subject_id")]: [None] is its [ValueError]. *)
Definition subject_index (header : list string) : option nat :=
  fst <$> list_find (λ key, key = "subject_id") header.

(** [key_ind] (line 315). *)
Definition key_ind (header : list string) : list (string * nat) :=
  filter (λ ki, ki.1 ≠ "subject_id") (imap (λ index key, (key, index)) header).

(** What [extract_rows] yields for the fields [vals] of one line (line
    321); [None] is the [IndexError] of a line with too few fields.  In
    the dictionary a later column of the same name replaces an earlier
    one. *)
Definition extract_row (subj_i : nat) (ki : list (string * nat))
    (vals : list string) : option (string * record) :=
  subject_id ← vals !! subj_i;
  d ← foldl (λ acc '(key, i), d ← acc; v ← vals !! i; Some (<[key := v]> d))
        (Some ∅) ki;
  Some (subject_id, d).

(** The loop of [__init__] (lines 297-300) drawing from the generator
    [extract_rows] (lines 319-323): a row is extracted when the loop
    asks for it, after the rows before it have been set. *)
Fixpoint load_rows (safe_load : bool) (subj_i : nat) (ki : list (string * nat))
    (line_nr : Z) (rows : list (list string)) (m : Mapping) : loaded Mapping :=
  match rows with
  | [] => Loaded m
  | vals :: rows' =>
      match extract_row subj_i ki vals with
      | None => InvalidLine (join_tab vals) (line_nr + 1)
      | Some (k, d) =>
          if safe_load then
            match Mapping.set valid_url k (ItemDict d) m with
            | (Ok _, m') => load_rows safe_load subj_i ki (line_nr + 1) rows' m'
            | (Raise e, _) => Failed e
            end
          else load_rows safe_load subj_i ki (line_nr + 1) rows'
                 (Mapping.fast_set k (ItemDict d) m)
      end
  end.

(** [extract_rows] (lines 308-323) consumed by [__init__]: a header
    without [subject_id] ends the generator before its first row.
    [line_nr] is the number of the header line and [m] the object with
    its prefixes set up and no record yet. *)
Definition load_body (safe_load : bool) (header : list string) (line_nr : Z)
    (rows : list (list string)) (m : Mapping) : loaded Mapping :=
  match subject_index header with
  | None => Loaded m
  | Some subj_i => load_rows safe_load subj_i (key_ind header) line_nr rows m
  end.

End MappingInit.
End MappingInit.

(** ** [NNURIs] (mapping.py:501-577) *)

Record NNURIs : Type := mkNNURIs {
  store : Mapping;                 (* the inherited [Mapping] *)
  domain_codes : DomainCodes;
  domain_code_ : option string;    (* [_domain_code], unset on some paths *)
  NNURIs_ : gset string;           (* [_NNURIs] *)
  nextNNID_ : Z;                   (* [_nextNNID] *)
  maxID_ : Z                       (* [_maxID] *)
}.

Definition truthy (v : pyint) : bool :=
  match v with
  | PyInt n => negb (n =? 0)
  | PyStr s => nonempty s
  end.

Module NNURIs.
Section NNURIs.
Variable valid_url : string → bool.

Definition with_store (st : NNURIs) (m : Mapping) : NNURIs :=
  {| store := m; domain_codes := domain_codes st;
     domain_code_ := domain_code_ st; NNURIs_ := NNURIs_ st;
     nextNNID_ := nextNNID_ st; maxID_ := maxID_ st |}.

Definition with_in_use (st : NNURIs) (s : gset string) : NNURIs :=
  {| store := store st; domain_codes := domain_codes st;
     domain_code_ := domain_code_ st; NNURIs_ := s;
     nextNNID_ := nextNNID_ st; maxID_ := maxID_ st |}.

Definition with_next (st : NNURIs) (n : Z) : NNURIs :=
  {| store := store st; domain_codes := domain_codes st;
     domain_code_ := domain_code_ st; NNURIs_ := NNURIs_ st;
     nextNNID_ := n; maxID_ := maxID_ st |}.

(** Lines 512-521: the three ways to settle [_domain_code]. *)
Definition settle_domain_code (domain : option string) (domain_code : option pyint)
    (dc : DomainCodes) : result (option string * DomainCodes) :=
  match domain, domain_code with
  | None, None => Raise (AssertionError NoDomainGiven)
  | _, _ =>
      let d := match domain with Some s => nonempty s | None => false end in
      let c := match domain_code with Some v => truthy v | None => false end in
      match d, c with
      | true, false =>
          code ← DomainCodes.get_code (default "" domain) dc;
          Ok (Some code, dc)
      | false, true =>
          match domain_code with
          | Some (PyStr s) =>
              if decide (is_Some (reverse_map dc !! s)) then Ok (Some s, dc)
              else Raise (AssertionError DomainCodeNotRegistered)
          | _ => Raise (AssertionError DomainCodeNotRegistered)
          end
      | true, true =>
          match DomainCodes.setitem (default "" domain)
                  (default (PyInt 0) domain_code) dc with
          | (Raise e, _) => Raise e
          | (Ok _, dc') =>
              code ← DomainCodes.getitem (default "" domain) dc';
              Ok (Some code, dc')
          end
      | false, false => Ok (None, dc)
      end
  end.

(** [set(nnuri["object_id"] for nnuri in self.data.values())]. *)
Definition object_ids (d : gmap string record) : result (gset string) :=
  list_to_set <$>
    mapM (M := result) (λ r : record,
      match r !! "object_id" with
      | Some oid => Ok oid
      | None => Raise (KeyError "object_id")
      end) (map_to_list d).*2.

(** [NNURIs.__init__] after [super().__init__] has built [m]
    (mapping.py:510-528). *)
Definition init_from (m : Mapping) (domain : option string)
    (domain_code : option pyint) : result NNURIs :=
  dc ← DomainCodes.init (preamble_domain_codes m);
  '(code, dc') ← settle_domain_code domain domain_code dc;
  let registered :=
    Some ((λ kv : string * string, (kv.1, PyStr kv.2)) <$> map_to_list (dc_data dc')) in
  pm ← (if decide (is_Some (curie_converter m !! "NN")) then Ok (curie_converter m)
        else add_prefix "NN" NN_domain (curie_converter m));
  in_use ← object_ids (data m);
  Ok {| store :=
          {| curie_converter := pm; data := data m; defaults := defaults m;
             preamble_domain_codes := registered;
             preamble_other := preamble_other m |};
        domain_codes := dc'; domain_code_ := code;
        NNURIs_ := in_use; nextNNID_ := 1; maxID_ := 900000 |}.

(** [NNURIs.__init__] (mapping.py:508-528). *)
Definition init (domain : option string) (domain_code : option pyint)
    (conv : option prefix_map) (mapping : list (string * item))
    (preamble : option PreambleIn) (dflt : gmap string string) (safe_load : bool)
    : result NNURIs :=
  m ← MappingInit.init valid_url conv mapping preamble dflt safe_load;
  init_from m domain domain_code.

(** The properties [domain_code] and [domain] (mapping.py:530-536). *)
Definition domain_code (st : NNURIs) : result string :=
  match domain_code_ st with
  | Some code => Ok code
  | None => Raise AttributeError
  end.

Definition domain (st : NNURIs) : result string :=
  code ← domain_code st;
  DomainCodes.get_domain (PyStr code) (domain_codes st).

(** [NNURIs.from_sssom_file] (mapping.py:538-548) once
    [Mapping.from_sssom_file] has returned [m]: the records of [m], in
    the order [items] of its dictionary, go through [__init__] again,
    over the converter and the preamble of [m]. *)
Definition from_mapping (m : Mapping) (items : list (string * record))
    (domain : option string) (domain_code : option pyint) (safe_load : bool)
    : result NNURIs :=
  init domain domain_code (Some (curie_converter m))
    ((λ kr : string * record, (kr.1, ItemDict kr.2)) <$> items)
    (Some {| pre_curie_map := Some (map_to_list (curie_converter m));
             pre_domain_codes := preamble_domain_codes m;
             pre_other := preamble_other m |})
    (defaults m) safe_load.

(** [_format_NNURI] (mapping.py:559-560). *)
Definition format_NNURI (st : NNURIs) (NNID : pyint) : result string :=
  match domain_code_ st with
  | None => Raise AttributeError
  | Some code => n ← py_int NNID; Ok (NN_domain +:+ code +:+ zfmt 6 n)
  end.

(** The [while] loop of [nextNNID] (mapping.py:553-556).  Each turn
    raises the counter by one and the assertion stops it below
    [_maxID], so [fuel] turns suffice once [fuel] is at least
    [_maxID - _nextNNID]; [nextNNID] below starts it there. *)
Fixpoint skip_in_use (fuel : nat) (st : NNURIs) : result unit * NNURIs :=
  match format_NNURI st (PyInt (nextNNID_ st)) with
  | Raise e => (Raise e, st)
  | Ok u =>
      if decide (u ∈ NNURIs_ st) then
        let nextNNID := nextNNID_ st + 1 in
        if negb (nextNNID <? maxID_ st)
        then (Raise (AssertionError MintCeiling), st)
        else
          match fuel with
          | S fuel' => skip_in_use fuel' (with_next st nextNNID)
          | O => (Raise (AssertionError MintCeiling), st)
          end
      else (Ok (), st)
  end.

(** The property [nextNNID] (mapping.py:550-557). *)
Definition nextNNID (st : NNURIs) : result string * NNURIs :=
  match skip_in_use (Z.to_nat (maxID_ st - nextNNID_ st)) st with
  | (Ok _, st') => (Ok (zfmt 6 (nextNNID_ st')), st')
  | (Raise e, st') => (Raise e, st')
  end.

(** [NNURIs.__setitem__] (mapping.py:562-565). *)
Definition setitem (key value : string) (st : NNURIs) : result unit * NNURIs :=
  match Mapping.setitem valid_url key value (store st) with
  | (Raise e, m) => (Raise e, with_store st m)
  | (Ok _, m) =>
      let st' := with_store st m in
      match expand valid_url (curie_converter m) safe value with
      | Raise e => (Raise e, st')
      | Ok e => (Ok (), with_in_use st' ({[ e ]} ∪ NNURIs_ st'))
      end
  end.

Definition getitem (key : string) (st : NNURIs) : result string :=
  Mapping.getitem valid_url key (store st).

(** [NNURIs.get] (mapping.py:567-573). *)
Definition get (key : string) (st : NNURIs) : result string * NNURIs :=
  match getitem key st with
  | Ok v => (Ok v, st)
  | Raise e =>
      if is_KeyError e then
        match nextNNID st with
        | (Raise e', st1) => (Raise e', st1)
        | (Ok serial, st1) =>
            match format_NNURI st1 (PyStr serial) with
            | Raise e' => (Raise e', st1)
            | Ok u =>
                match setitem key u st1 with
                | (Raise e', st2) => (Raise e', st2)
                | (Ok _, st2) => (getitem key st2, st2)
                end
            end
        end
      else (Raise e, st)
  end.

(** [NNURIs.get_uri] (mapping.py:575-577). *)
Definition get_uri (key : string) (st : NNURIs) : result string * NNURIs :=
  match get key st with
  | (Ok c, st') => (expand valid_url (curie_converter (store st')) safe c, st')
  | (Raise e, st') => (Raise e, st')
  end.

End NNURIs.
End NNURIs.

(** ** The triple graph (rdflib) *)

(** An [rdflib.Literal]: lexical form, language tag, datatype. *)
Record literal : Type := mkLiteral {
  lexical : string;
  language : option string;
  datatype : option string
}.

Inductive term : Type :=
| URIRef (s : string)
| BNode (s : string)
| Literal (l : literal).

#[global] Instance literal_eq_dec : EqDecision literal.
Proof. solve_decision. Defined.
#[global] Instance term_eq_dec : EqDecision term.
Proof. solve_decision. Defined.

#[global] Instance literal_countable : Countable literal.
Proof.
  refine (inj_countable'
    (λ l, (lexical l, language l, datatype l))
    (λ t, mkLiteral t.1.1 t.1.2 t.2) _).
  by intros [].
Defined.

#[global] Instance term_countable : Countable term.
Proof.
  refine (inj_countable'
    (λ t, match t with
          | URIRef s => inl (inl s)
          | BNode s => inl (inr s)
          | Literal l => inr l
          end)
    (λ x, match x with
          | inl (inl s) => URIRef s
          | inl (inr s) => BNode s
          | inr l => Literal l
          end) _).
  by intros [].
Defined.

Abbreviation triple := (term * term * term)%type.
Abbreviation graph := (gset triple).

Definition subject (t : triple) : term := t.1.1.
Definition predicate (t : triple) : term := t.1.2.
Definition object (t : triple) : term := t.2.

(** [str(node)]. *)
Definition str (t : term) : string :=
  match t with
  | URIRef s | BNode s => s
  | Literal l => lexical l
  end.

(** [Literal(x)] of a [str], and of [None], whose [str()] rdflib takes. *)
Definition plain_literal (o : option string) : term :=
  Literal {| lexical := default "None" o; language := None; datatype := None |}.

Definition RDF_type : term :=
  URIRef "http://www.w3.org/1999/02/22-rdf-syntax-ns#type".
Definition SKOSXL_Label : term :=
  URIRef "http://www.w3.org/2008/05/skos-xl#Label".
(** [NNP.sourced_from]. *)
Definition sourced_from : term :=
  URIRef (NN_domain +:+ "property/" +:+ "sourced_from").

(** [g.add] and [g.remove] of one triple. *)
Definition g_add (t : triple) (g : graph) : graph := {[ t ]} ∪ g.
Definition g_remove (t : triple) (g : graph) : graph := g ∖ {[ t ]}.

(** [g.predicate_objects(s)], [g.subject_predicates(o)] and
    [g.subjects(p, o)].  The graph is rdflib's, a third-party package; a
    [for] loop over one of these generators is modelled as visiting the
    triples that match when the loop is entered, in the order [elements]
    lists them. *)
Definition predicate_objects (g : graph) (s : term) : list (term * term) :=
  (λ t, (predicate t, object t)) <$> elements (filter (λ t, subject t = s) g).
Definition subject_predicates (g : graph) (o : term) : list (term * term) :=
  (λ t, (subject t, predicate t)) <$> elements (filter (λ t, object t = o) g).
Definition subjects (g : graph) (p o : term) : gset term :=
  set_map subject (filter (λ t, predicate t = p ∧ object t = o) g).

(** The dictionary [mapping] of replace_URIs.py:105, in insertion order;
    its keys and values are [URIRef]s. *)
Abbreviation assignment := (list (string * string)).

Fixpoint assigned (mapping : assignment) (s : string) : option string :=
  match mapping with
  | [] => None
  | (puri, nnuri) :: rest =>
      if decide (puri = s) then Some nnuri else assigned rest s
  end.

(** [mapping.get(o, o)]. *)
Definition mapping_get (mapping : assignment) (o : term) : term :=
  match o with
  | URIRef s => match assigned mapping s with Some n => URIRef n | None => o end
  | _ => o
  end.

Definition is_Literal (o : term) : bool :=
  match o with Literal _ => true | _ => false end.

(** The statistics of the pass together with the graph. *)
Record pass : Type := mkPass {
  g_ : graph;
  replaced_triples : Z;
  added_triples : Z
}.

Section Rewrite.
Variable mapping : assignment.
Variable label_objects : gset term.

(** Lines 134-139, for one label object [o] renamed to [onn]. *)
Definition rewrite_label (o onn : term) (st : pass) : pass :=
  foldl (λ st' '(p1, o1),
           let o1nn := mapping_get mapping o1 in
           {| g_ := g_add (onn, p1, o1nn) (g_remove (o, p1, o1) (g_ st'));
              replaced_triples := replaced_triples st' + 1;
              added_triples := added_triples st' |})
        st (predicate_objects (g_ st) o).

(** Lines 120-128. *)
Definition rewrite_object (puri nnuri : string) (o : term) : term :=
  if is_Literal o then o
  else if decide (o ∈ label_objects)
  then URIRef (replace (str o) puri nnuri)
  else mapping_get mapping o.

(** Lines 119-139, one turn. *)
Definition rewrite_outgoing_step (puri nnuri : string) (st : pass)
    (po : term * term) : pass :=
  let '(p, o) := po in
  let onn := rewrite_object puri nnuri o in
  let st1 :=
    {| g_ := g_add (URIRef nnuri, p, onn) (g_remove (URIRef puri, p, o) (g_ st));
       replaced_triples := replaced_triples st + 1;
       added_triples := added_triples st |} in
  if decide (o ∈ label_objects) then rewrite_label o onn st1 else st1.

Definition rewrite_outgoing (puri nnuri : string) (st : pass) : pass :=
  foldl (rewrite_outgoing_step puri nnuri) st
        (predicate_objects (g_ st) (URIRef puri)).

(** Lines 141-146. *)
Definition rewrite_incoming (puri nnuri : string) (st : pass) : pass :=
  foldl (λ st' '(s, p),
           let snn := mapping_get mapping s in
           {| g_ := g_add (snn, p, URIRef nnuri)
                      (g_remove (s, p, URIRef puri) (g_ st'));
              replaced_triples := replaced_triples st' + 1;
              added_triples := added_triples st' |})
        st (subject_predicates (g_ st) (URIRef puri)).

(** Lines 147-149; [compress] is the converter's, in its default mode. *)
Definition add_provenance (compress_puri : option string) (nnuri : string)
    (st : pass) : pass :=
  {| g_ := g_add (URIRef nnuri, sourced_from, plain_literal compress_puri) (g_ st);
     replaced_triples := replaced_triples st;
     added_triples := added_triples st + 1 |}.

End Rewrite.

Module Rewriter.
Section Rewriter.
Variable valid_url : string → bool.

(** The body of the loop of replace_URIs.py:117-149 for one candidate. *)
Definition rewrite_candidate (pm : prefix_map) (mapping : assignment)
    (label_objects : gset term) (puri nnuri : string) (st : pass)
    : result pass :=
  let st1 := rewrite_outgoing mapping label_objects puri nnuri st in
  let st2 := rewrite_incoming mapping puri nnuri st1 in
  c ← compress valid_url pm safe puri;
  Ok (add_provenance c nnuri st2).

Fixpoint rewrite_loop (pm : prefix_map) (mapping : assignment)
    (label_objects : gset term) (todo : assignment) (st : pass) : result pass :=
  match todo with
  | [] => Ok st
  | (puri, nnuri) :: todo' =>
      st' ← rewrite_candidate pm mapping label_objects puri nnuri st;
      rewrite_loop pm mapping label_objects todo' st'
  end.

(** Lines 111-149: the whole pass over [g] for the assignment
    [mapping]. *)
Definition rewrite (pm : prefix_map) (mapping : assignment) (g : graph)
    : result pass :=
  let label_objects := subjects g RDF_type SKOSXL_Label in
  rewrite_loop pm mapping label_objects mapping
    {| g_ := g; replaced_triples := 0; added_triples := 0 |}.

(** Line 99: the candidates outside the NN namespace, or the first
    exception of [parse]. *)
Fixpoint filter_public (pm : prefix_map) (l : list string) : result (list string) :=
  match l with
  | [] => Ok []
  | puri :: l' =>
      r ← parse valid_url pm puri;
      rest ← filter_public pm l';
      if decide (fst <$> r ≠ Some "NN") then Ok (puri :: rest) else Ok rest
  end.

(** Line 105: one [get_uri] per candidate, in order. *)
Fixpoint mint_all (l : list string) (st : NNURIs) : result assignment * NNURIs :=
  match l with
  | [] => (Ok [], st)
  | puri :: l' =>
      match NNURIs.get_uri valid_url puri st with
      | (Raise e, st') => (Raise e, st')
      | (Ok nnuri, st') =>
          match mint_all l' st' with
          | (Raise e, st'') => (Raise e, st'')
          | (Ok rest, st'') => (Ok ((puri, nnuri) :: rest), st'')
          end
      end
  end.

(** Lines 99-105: [public_URIs] is the collected set in the order its
    iterator yields it. *)
Definition mint_phase (public_URIs : list string) (st : NNURIs)
    : result assignment * NNURIs :=
  match filter_public (curie_converter (store st)) public_URIs with
  | Raise e => (Raise e, st)
  | Ok l => mint_all (Mapping.sorted l) st
  end.

(** Lines 99-149: minting, then the pass over the graph. *)
Definition replace_URIs (public_URIs : list string) (g : graph) (st : NNURIs)
    : result pass * NNURIs :=
  match mint_phase public_URIs st with
  | (Raise e, st') => (Raise e, st')
  | (Ok mapping, st') =>
      (rewrite (curie_converter (store st')) mapping g, st')
  end.

End Rewriter.
End Rewriter.

(** * Vocabulary of the properties *)

(** [expand(compress(u))], both in their default mode "safe". *)
Definition expand_compress (valid_url : string → bool) (pm : prefix_map)
    (u : string) : result string :=
  c ← compress valid_url pm safe u;
  s ← of_py c;
  expand valid_url pm safe s.

(** [standardize] applied to the result of a [standardize]. *)
Definition standardize_again (valid_url : string → bool) (pm : prefix_map)
    (r : result (option string)) : result (option string) :=
  c ← r; s ← of_py c; standardize valid_url pm s.

(** No namespace of the table is a prefix of [v], and [v] has no
    registered prefix before its first colon. *)
Definition unregistered (pm : prefix_map) (v : string) : Prop :=
  parse_uri pm v = None ∧
  ∀ p i, split_colon v = Some (p, i) → pm !! p = None.

(** [v] starts with a registered namespace or with a registered prefix
    and a colon. *)
Definition registered (pm : prefix_map) (v : string) : Prop :=
  uri_prefix_known pm v = true ∨ curie_prefix_known pm v = true.

(** No prefix of the table contains the delimiter. *)
Definition colon_free (pm : prefix_map) : Prop :=
  ∀ p ns, pm !! p = Some ns → has_colon p = false.

(** The registries [DomainCodes.__setitem__] builds: the two dictionaries
    mirror each other, every domain is one word, every code is the
    two-digit form of a number from 0 to 99. *)
Definition registry_valid (dc : DomainCodes) : Prop :=
  DomainCodes.consistent dc
  ∧ ∀ d c, dc_data dc !! d = Some c →
      DomainCodes.domain_ok d = true ∧ ∃ n, 0 ≤ n < 100 ∧ c = zfmt 2 n.

(** The states a minter goes through: any number of [get] calls, whatever
    their outcome. *)
Inductive gets_from (valid_url : string → bool) (st0 : NNURIs) : NNURIs → Prop :=
| gets_none : gets_from valid_url st0 st0
| gets_more st key r st' :
    gets_from valid_url st0 st →
    NNURIs.get valid_url key st = (r, st') →
    gets_from valid_url st0 st'.

(** ** Vocabulary of the graph rewriter *)

(** The test of replace_URIs.py:99 on one candidate. *)
Definition is_public (valid_url : string → bool) (pm : prefix_map) (x : string) : bool :=
  match parse valid_url pm x with
  | Ok r => bool_decide (fst <$> r ≠ Some "NN")
  | Raise _ => false
  end.

(** The provenance triple of a candidate. *)
Definition provenance (q : option string) (nnuri : string) : triple :=
  (URIRef nnuri, sourced_from, plain_literal q).

Section Rewrite_vocabulary.
Variable valid_url : string → bool.
Variable pm : prefix_map.
Variable mapping : assignment.
Variable label_objects : gset term.
(** The graph the pass starts from. *)
Variable g0 : graph.

(** A node that is one of the candidates. *)
Definition is_candidate (t : term) : Prop :=
  ∃ c, t = URIRef c ∧ c ∈ mapping.*1.

(** A triple whose subject and object are no candidates. *)
Definition clean (t : triple) : Prop :=
  ¬ is_candidate (subject t) ∧ ¬ is_candidate (object t).

(** The provenance triple of some candidate. *)
Definition is_provenance (t : triple) : Prop :=
  ∃ c n q, (c, n) ∈ mapping ∧ compress valid_url pm safe c = Ok q
           ∧ t = provenance q n.

(** The input already has a triple under the provenance predicate. *)
Definition inherited : Prop :=
  ∃ t0, t0 ∈ g0 ∧ predicate t0 = sourced_from.

(** What the pass adds: clean triples, and under the provenance
    predicate only provenance triples, unless the input had such
    triples to rewrite. *)
Definition fresh (t : triple) : Prop :=
  clean t ∧ (predicate t = sourced_from → is_provenance t ∨ inherited).

(** A triple no step of the pass removes: clean, and not the description
    of a label node. *)
Definition kept (t : triple) : Prop :=
  clean t ∧ subject t ∉ label_objects.

(** [g'] comes from [g] by removing triples, all of them in [R] or not
    [kept], and adding fresh ones. *)
Definition edited (R : triple → Prop) (g g' : graph) : Prop :=
  (∀ t, t ∈ g' → (t ∈ g ∧ ¬ R t) ∨ fresh t)
  ∧ (∀ t, t ∈ g → kept t → t ∈ g').

(** Every triple under the provenance predicate is the provenance
    triple of a candidate, unless the input had such triples. *)
Definition provenance_sound (g : graph) : Prop :=
  ∀ t, t ∈ g → predicate t = sourced_from → is_provenance t ∨ inherited.

End Rewrite_vocabulary.

(** ** Examples *)

(** A table with one public prefix, an empty store over it, and the
    minter [NNURIs(domain="finance", domain_code=7)] built from it. *)
Definition demo_prefixes : prefix_map := {[ "ex" := "http://example.org/" ]}.

Definition demo_store : Mapping :=
  mkMapping demo_prefixes ∅ default_defaults None [].

Definition demo_minter : NNURIs :=
  {| store := mkMapping (<["NN" := NN_domain]> demo_prefixes) ∅ default_defaults
                (Some [("finance", PyStr "07")]) [];
     domain_codes := {| dc_data := {[ "finance" := "07" ]};
                        reverse_map := {[ "07" := "finance" ]} |};
     domain_code_ := Some "07";
     NNURIs_ := ∅;
     nextNNID_ := 1;
     maxID_ := 900000 |}.

(** A store that already maps [ex:1], and the minter built from it. *)
Definition demo_mapped_store : Mapping :=
  mkMapping (<["NN" := NN_domain]> demo_prefixes)
    {[ "http://example.org/1" :=
         ({[ "object_id" := "https://ontology.novonordisk.com/07000001" ]} : record) ]}
    default_defaults None [].

Definition demo_mapped_minter : NNURIs :=
  {| store := mkMapping (<["NN" := NN_domain]> demo_prefixes)
                (data demo_mapped_store) default_defaults
                (Some [("finance", PyStr "07")]) [];
     domain_codes := {| dc_data := {[ "finance" := "07" ]};
                        reverse_map := {[ "07" := "finance" ]} |};
     domain_code_ := Some "07";
     NNURIs_ := {[ "https://ontology.novonordisk.com/07000001" ]};
     nextNNID_ := 1;
     maxID_ := 900000 |}.

(** A stand-in for [validators.url] on the examples: it accepts what
    starts with [http://] or [https://]. *)
Definition http_url (s : string) : bool :=
  bool_decide (is_Some (strip_prefix "http://" s))
  || bool_decide (is_Some (strip_prefix "https://" s)).

(** The graph of one concept [ex:1] with a literal, a plain object, an
    incoming triple and a label node, and the assignment of [ex:1]. *)
Definition demo_concept : string := "http://example.org/1".
Definition demo_nnuri : string := "https://ontology.novonordisk.com/07000001".
Definition demo_label : term := URIRef "http://example.org/1#label-en".
Definition SKOS_Concept : term :=
  URIRef "http://www.w3.org/2004/02/skos/core#Concept".
Definition SKOS_broader : term :=
  URIRef "http://www.w3.org/2004/02/skos/core#broader".
Definition SKOS_notation : term :=
  URIRef "http://www.w3.org/2004/02/skos/core#notation".
Definition SKOSXL_prefLabel : term :=
  URIRef "http://www.w3.org/2008/05/skos-xl#prefLabel".
Definition SKOSXL_literalForm : term :=
  URIRef "http://www.w3.org/2008/05/skos-xl#literalForm".

Definition demo_graph : graph :=
  {[ (URIRef demo_concept, RDF_type, SKOS_Concept);
     (URIRef demo_concept, SKOS_notation, plain_literal (Some "one"));
     (URIRef "http://example.org/2", SKOS_broader, URIRef demo_concept);
     (URIRef demo_concept, SKOSXL_prefLabel, demo_label);
     (demo_label, RDF_type, SKOSXL_Label);
     (demo_label, SKOSXL_literalForm, plain_literal (Some "One")) ]}.

Definition demo_assignment : assignment := [(demo_concept, demo_nnuri)].

(** A graph that uses the concept as a predicate. *)
Definition demo_predicate_graph : graph :=
  {[ (URIRef demo_concept, RDF_type, SKOS_Concept);
     (URIRef "http://example.org/a", URIRef demo_concept,
      URIRef "http://example.org/b") ]}.

(** ** Vocabulary of the further properties *)

(** What the pass makes of a triple of the input: a candidate in subject
    position becomes its assigned identifier and the object goes through
    lines 120-128; under any other subject the object goes through
    [mapping.get]. *)
Definition renamed (mapping : assignment) (label_objects : gset term)
    (t : triple) : triple :=
  match subject t with
  | URIRef s =>
      match assigned mapping s with
      | Some n => (URIRef n, predicate t,
                   rewrite_object mapping label_objects s n (object t))
      | None => (subject t, predicate t, mapping_get mapping (object t))
      end
  | _ => (subject t, predicate t, mapping_get mapping (object t))
  end.

(** A triple whose predicate, and whose object when it is a literal,
    are those of a triple of [g], or that carries under the provenance
    predicate the compressed form of a candidate. *)
Definition traceable (valid_url : string → bool) (pm : prefix_map)
    (mapping : assignment) (g : graph) (t : triple) : Prop :=
  (∃ t0, t0 ∈ g ∧ predicate t0 = predicate t
         ∧ (is_Literal (object t) = true → object t0 = object t))
  ∨ (predicate t = sourced_from
     ∧ ∃ c n q, (c, n) ∈ mapping ∧ compress valid_url pm safe c = Ok q
                ∧ object t = plain_literal q).

(** * Properties *)

(** ** Strings *)

Lemma strip_prefix_app ns l : strip_prefix ns (ns +:+ l) = Some l.
Proof. induction ns as [|a ns IH]; simpl; [done|]. by rewrite decide_True. Qed.

Lemma strip_prefix_Some ns u l : strip_prefix ns u = Some l → u = ns +:+ l.
Proof.
  revert u. induction ns as [|a ns IH]; intros u; simpl.
  - by intros [= ->].
  - destruct u as [|b u]; [done|]. case_decide; [|done].
    intros ?%IH. by subst.
Qed.

Lemma split_colon_format p i :
  has_colon p = false → split_colon (format_curie p i) = Some (p, i).
Proof.
  unfold format_curie. induction p as [|a p IH]; simpl; [done|].
  case_decide; [done|]. intros ?. by rewrite IH.
Qed.

Lemma nonempty_true s : nonempty s = true ↔ s ≠ "".
Proof. by destruct s. Qed.

Lemma nonempty_app_l s t : nonempty s = true → nonempty (s +:+ t) = true.
Proof. by destruct s. Qed.

Lemma nonempty_app_r s t : nonempty t = true → nonempty (s +:+ t) = true.
Proof. by destruct s, t. Qed.

(** ** The prefix table *)

Lemma longer_match_fold u l acc r :
  foldl (longer_match u) acc l = Some r →
  acc = Some r ∨ (r ∈ l ∧ is_Some (strip_prefix r.2 u)).
Proof.
  revert acc. induction l as [|kv l IH]; intros acc; simpl; [by left|].
  intros [Hacc|[? ?]]%IH; [|right; split; [by right|done]].
  unfold longer_match in Hacc.
  destruct (strip_prefix kv.2 u) eqn:Hs; [|by left].
  destruct acc as [b|].
  - case_decide; [|by left]. simplify_eq. right. rewrite Hs. split; [by left|eauto].
  - simplify_eq. right. rewrite Hs. split; [by left|eauto].
Qed.

Lemma longer_match_fold_None u l acc :
  foldl (longer_match u) acc l = None →
  acc = None ∧ ∀ kv, kv ∈ l → strip_prefix kv.2 u = None.
Proof.
  revert acc. induction l as [|kv l IH]; intros acc; simpl.
  - intros ->. split; [done|]. by intros ? ?%elem_of_nil.
  - intros [Hacc Hl]%IH. unfold longer_match in Hacc.
    destruct (strip_prefix kv.2 u) eqn:Hs.
    + destruct acc; [case_decide|]; done.
    + split; [done|]. intros kv' [->|?]%elem_of_cons; auto.
Qed.

Lemma longest_prefix_item_Some pm u p ns :
  longest_prefix_item pm u = Some (p, ns) →
  pm !! p = Some ns ∧ ∃ l, strip_prefix ns u = Some l.
Proof.
  intros [?|[Hin [l Hl]]]%longer_match_fold; [done|].
  apply elem_of_map_to_list in Hin. eauto.
Qed.

Lemma longest_prefix_item_None pm u :
  longest_prefix_item pm u = None →
  ∀ p ns, pm !! p = Some ns → strip_prefix ns u = None.
Proof.
  intros [_ H]%longer_match_fold_None p ns Hp.
  apply (H (p, ns)). by apply elem_of_map_to_list.
Qed.

Lemma parse_uri_Some pm u p l :
  parse_uri pm u = Some (p, l) → ∃ ns, pm !! p = Some ns ∧ u = ns +:+ l.
Proof.
  unfold parse_uri. destruct (longest_prefix_item pm u) as [[p' ns]|] eqn:H; [|done].
  apply longest_prefix_item_Some in H as [Hp [l' Hl]]. simpl. rewrite Hl. simpl.
  intros [= -> ->]. exists ns. split; [done|]. by apply strip_prefix_Some.
Qed.

Lemma parse_uri_None pm u :
  parse_uri pm u = None → ∀ p ns, pm !! p = Some ns → strip_prefix ns u = None.
Proof.
  unfold parse_uri. destruct (longest_prefix_item pm u) as [[p' ns]|] eqn:H.
  - apply longest_prefix_item_Some in H as [Hp [l' Hl]]. simpl. by rewrite Hl.
  - intros _. by apply longest_prefix_item_None.
Qed.

(** A value that starts with a registered namespace is parsed as a URI. *)
Lemma parse_uri_is_Some pm p ns l :
  pm !! p = Some ns → is_Some (parse_uri pm (ns +:+ l)).
Proof.
  intros Hp. destruct (parse_uri pm (ns +:+ l)) eqn:H; [eauto|].
  eapply parse_uri_None in H; [|done]. by rewrite strip_prefix_app in H.
Qed.

(** ** [Converter2] *)

Section Converter2_facts.
Variable valid_url : string → bool.
Variable pm : prefix_map.

Lemma uri_prefix_known_parse v :
  uri_prefix_known pm v = bool_decide (is_Some (parse_uri pm v)).
Proof.
  unfold uri_prefix_known. destruct (parse_uri pm v) as [[p l]|] eqn:H.
  - apply parse_uri_Some in H as (ns & -> & _).
    rewrite !bool_decide_eq_true_2; eauto.
  - rewrite bool_decide_eq_false_2; [done|]. by intros [].
Qed.

Lemma validate_uri v :
  validate valid_url pm v = Ok uri ↔
  is_Some (parse_uri pm v) ∧ valid_url v = true.
Proof.
  unfold validate. rewrite uri_prefix_known_parse.
  case_bool_decide as H.
  - destruct (valid_url v); split; try done. by intros [_ ?].
  - destruct (curie_prefix_known pm v); split; try done; by intros [? _].
Qed.

Lemma validate_curie v :
  validate valid_url pm v = Ok curie ↔
  parse_uri pm v = None ∧
  ∃ p i ns, split_colon v = Some (p, i) ∧ pm !! p = Some ns.
Proof.
  unfold validate, curie_prefix_known, parse_curie.
  rewrite uri_prefix_known_parse. case_bool_decide as H.
  - destruct H as [x Hx]. destruct (valid_url v); split; try done.
    all: intros [? _]; congruence.
  - assert (parse_uri pm v = None) as Hn.
    { destruct (parse_uri pm v); [|done]. destruct H; eauto. }
    destruct (split_colon v) as [[p i]|].
    + case_bool_decide as Hp.
      * destruct Hp as [ns Hns]. split; [|done]. intros _. split; [done|]. eauto.
      * split; [done|]. intros (_ & p' & i' & ns & [= <- <-] & Hns).
        destruct Hp; eauto.
    + split; [done|]. by intros (_ & ? & ? & ? & ? & _).
Qed.

(** The branch of [expand_safe] closed with [TypeError] is dead. *)
Lemma expand_safe_curie_some c :
  validate valid_url pm c = Ok curie →
  ∃ u, lib_expand pm c = Ok (Some u) ∧ expand_safe valid_url pm c = Ok u.
Proof.
  intros Hv. pose proof Hv as (Hn & p & i & ns & Hs & Hp)%validate_curie.
  unfold expand_safe, lib_expand, parse_curie. rewrite Hv, Hs. simpl.
  rewrite Hp. destruct (nonempty (ns +:+ i)) eqn:Hne; [eauto|].
  destruct ns; [|done].
  eapply parse_uri_None in Hn; [|done]. done.
Qed.

End Converter2_facts.

Section Converter2_claims.
Variable valid_url : string → bool.
Variable pm : prefix_map.

Lemma unregistered_validate v :
  unregistered pm v → validate valid_url pm v = Raise (UnknownPrefix v).
Proof.
  intros [Hu Hc]. unfold validate. rewrite uri_prefix_known_parse, Hu.
  rewrite bool_decide_eq_false_2 by (by intros []).
  unfold curie_prefix_known, parse_curie.
  destruct (split_colon v) as [[p i]|]; [|done].
  rewrite (Hc p i) by done. rewrite bool_decide_eq_false_2; [done|]. by intros [].
Qed.

Lemma compress_fast_unregistered v :
  parse_uri pm v = None → compress_fast pm v = v.
Proof.
  intros Hu. unfold compress_fast, lib_compress. rewrite Hu. by destruct v.
Qed.

Lemma expand_fast_unregistered v :
  (∀ p i, split_colon v = Some (p, i) → pm !! p = None) → expand_fast pm v = v.
Proof.
  intros Hc. unfold expand_fast, lib_expand, parse_curie.
  destruct (split_colon v) as [[p i]|]; simpl.
  - rewrite (Hc p i) by done. by destruct v.
  - by destruct v.
Qed.

(** The compressed form of a validated URI expands back to it, when it
    is itself read as a CURIE. *)
Lemma expand_lib_compress e c :
  colon_free pm →
  lib_compress pm e = Some c →
  validate valid_url pm c = Ok curie →
  expand_safe valid_url pm c = Ok e.
Proof.
  intros Hcf Hc Hv. unfold lib_compress in Hc.
  destruct (parse_uri pm e) as [[p l]|] eqn:Hp; [|done].
  destruct (nonempty p && nonempty l) eqn:Hne; [|done]. simplify_eq.
  apply parse_uri_Some in Hp as (ns & Hns & ->).
  unfold expand_safe, lib_expand, parse_curie. rewrite Hv. simpl.
  rewrite split_colon_format by eauto. simpl. rewrite Hns.
  apply andb_prop in Hne as [_ Hl]. by rewrite nonempty_app_r.
Qed.

(** What [expand_safe] returns starts with a registered namespace. *)
Lemma expand_safe_parse_uri x e :
  expand_safe valid_url pm x = Ok e → is_Some (parse_uri pm e).
Proof.
  unfold expand_safe. destruct (validate valid_url pm x) as [[]|] eqn:Hv; simpl.
  - intros [= <-]. by apply validate_uri in Hv as [? _].
  - apply validate_curie in Hv as (_ & p & i & ns & Hs & Hp).
    unfold lib_expand, parse_curie. rewrite Hs. simpl. rewrite Hp.
    destruct (nonempty (ns +:+ i)); [|done]. intros [= <-].
    by eapply parse_uri_is_Some.
  - done.
Qed.

Lemma compress_safe_of_expanded e c :
  is_Some (parse_uri pm e) →
  compress_safe valid_url pm e = Ok (Some c) →
  validate valid_url pm e = Ok uri ∧ lib_compress pm e = Some c.
Proof.
  intros He. unfold compress_safe, validate. rewrite uri_prefix_known_parse.
  rewrite bool_decide_eq_true_2 by done.
  destruct (valid_url e); simpl; [|done]. by intros [= ->].
Qed.

End Converter2_claims.

(** C6: for a value whose namespace is unregistered, [compress] and
    [expand] in mode "safe" raise [UnknownPrefix] carrying the value, in
    mode "fast" they return the value unchanged, and in mode "fast" the
    empty string yields the empty string. *)
Theorem C6_unregistered_strict_lenient valid_url pm v :
  unregistered pm v →
  compress valid_url pm safe v = Raise (UnknownPrefix v)
  ∧ expand valid_url pm safe v = Raise (UnknownPrefix v)
  ∧ compress valid_url pm fast v = Ok (Some v)
  ∧ expand valid_url pm fast v = Ok v
  ∧ compress valid_url pm fast "" = Ok (Some "")
  ∧ expand valid_url pm fast "" = Ok "".
Proof.
  intros Hu. pose proof (unregistered_validate valid_url pm v Hu) as Hv.
  destruct Hu as [Hu Hc]. simpl.
  unfold compress_safe, expand_safe. rewrite Hv. simpl.
  rewrite compress_fast_unregistered, expand_fast_unregistered by done.
  done.
Qed.

Lemma C6_witness :
  let pm : prefix_map := {[ "ex" := "http://example.org/" ]} in
  unregistered pm "obo:GO_1"
  ∧ compress (λ _, true) pm safe "obo:GO_1" = Raise (UnknownPrefix "obo:GO_1")
  ∧ expand (λ _, true) pm fast "obo:GO_1" = Ok "obo:GO_1".
Proof.
  assert (unregistered {[ "ex" := "http://example.org/" ]} "obo:GO_1") as H.
  { split; [by vm_compute|]. intros p i [= <- <-]. by vm_compute. }
  split; [exact H|].
  pose proof (C6_unregistered_strict_lenient (λ _, true) _ _ H) as (H1 & _ & _ & H4 & _).
  split; [exact H1 | exact H4].
Defined.

(** C4, as the code has it: a value that [validate] reads as a URI
    (registered namespace, accepted by [validators.url]), whose compressed
    form exists and is read as a CURIE, in a table whose prefixes hold no
    colon, satisfies [expand(compress(u)) == u]. *)
Theorem C4_expand_compress valid_url pm u c :
  colon_free pm →
  validate valid_url pm u = Ok uri →
  compress valid_url pm safe u = Ok (Some c) →
  validate valid_url pm c = Ok curie →
  expand_compress valid_url pm u = Ok u.
Proof.
  intros Hcf Hu Hc Hv. unfold expand_compress. rewrite Hc. simpl.
  simpl in Hc. unfold compress_safe in Hc. rewrite Hu in Hc. simpl in Hc.
  simplify_eq. by eapply expand_lib_compress.
Qed.

Lemma C4_witness :
  let pm : prefix_map := {[ "ex" := "http://example.org/" ]} in
  expand_compress (λ _, true) pm "http://example.org/1" = Ok "http://example.org/1".
Proof.
  apply (C4_expand_compress (λ _, true) _ _ "ex:1").
  - intros p ns [<- <-]%lookup_singleton_Some. reflexivity.
  - vm_compute. reflexivity.
  - vm_compute. reflexivity.
  - vm_compute. reflexivity.
Defined.

(** C4 as stated fails: with the namespaces [https://doi.org/] and [doi:]
    both registered, [https://doi.org/10.1/x] has a registered namespace
    and compresses to [doi:10.1/x], which [validate] reads as a URI of the
    second namespace; whatever [validators.url] answers, [expand] does not
    give the original back. *)
Lemma C4_counterexample :
  let pm : prefix_map := {[ "doi" := "https://doi.org/"; "DOI" := "doi:" ]} in
  let u := "https://doi.org/10.1/x" in
  is_Some (parse_uri pm u)
  ∧ ¬ ∃ valid_url, expand_compress valid_url pm u = Ok u.
Proof.
  split; [by vm_compute; eauto|].
  intros [valid_url H]. unfold expand_compress in H. simpl in H.
  unfold compress_safe, validate in H.
  replace (uri_prefix_known _ "https://doi.org/10.1/x") with true in H by by vm_compute.
  destruct (valid_url "https://doi.org/10.1/x"); [|done].
  simpl in H.
  replace (lib_compress _ "https://doi.org/10.1/x") with (Some "doi:10.1/x") in H
    by by vm_compute.
  simpl in H. unfold expand_safe, validate in H.
  replace (uri_prefix_known _ "doi:10.1/x") with true in H by by vm_compute.
  destruct (valid_url "doi:10.1/x"); simpl in H; done.
Qed.

(** C5, as the code has it: [standardize(x)] is [compress(expand(x))];
    when it yields [c] and [c] is read as a CURIE in a table whose
    prefixes hold no colon, [expand(compress(x))] is the expansion of
    [standardize(x)], and [standardize(standardize(x)) == standardize(x)]. *)
Theorem C5_standardize valid_url pm x c :
  colon_free pm →
  standardize valid_url pm x = Ok (Some c) →
  validate valid_url pm c = Ok curie →
  standardize valid_url pm x
    = (e ← expand valid_url pm safe x; compress valid_url pm safe e)
  ∧ expand_compress valid_url pm x = expand valid_url pm safe c
  ∧ standardize_again valid_url pm (standardize valid_url pm x)
    = standardize valid_url pm x.
Proof.
  intros Hcf Hs Hv. split; [done|].
  unfold standardize_again. rewrite Hs. simpl.
  unfold standardize in *. simpl in *.
  destruct (expand_safe valid_url pm x) as [e|] eqn:He; [|done]. simpl in Hs.
  pose proof (expand_safe_parse_uri _ _ _ _ He) as Hpe.
  apply compress_safe_of_expanded in Hs as Hs'; [|done].
  destruct Hs' as [Hve Hlc].
  pose proof (expand_lib_compress _ _ _ _ Hcf Hlc Hv) as Hec.
  split; [|by rewrite Hec].
  rewrite Hec. unfold expand_compress. simpl. unfold compress_safe.
  unfold expand_safe in He.
  destruct (validate valid_url pm x) as [[]|] eqn:Hvx; simpl in *.
  - simplify_eq. rewrite Hlc. simpl. done.
  - unfold expand_safe. rewrite Hvx. done.
  - done.
Qed.

Lemma C5_witness :
  let pm : prefix_map := {[ "ex" := "http://example.org/" ]} in
  expand_compress (λ _, true) pm "http://example.org/1"
    = expand (λ _, true) pm safe "ex:1"
  ∧ standardize_again (λ _, true) pm (standardize (λ _, true) pm "http://example.org/1")
    = standardize (λ _, true) pm "http://example.org/1".
Proof.
  refine (proj2 (C5_standardize (λ _, true) _ "http://example.org/1" "ex:1" _ _ _)).
  - intros p ns [<- <-]%lookup_singleton_Some. reflexivity.
  - vm_compute. reflexivity.
  - vm_compute. reflexivity.
Defined.

(** C5 as stated fails: [expand(compress(x))] is an expanded identifier
    and [standardize(x)] a qualified one.  For [ex:1] the first is
    [http://example.org/1]; the second is [ex:1], or [InvalidURI] when
    [validators.url] refuses the expansion.  For [http://example.org/1]
    and a validator that accepts it the two are again
    [http://example.org/1] and [ex:1]. *)
Lemma C5_counterexample :
  let pm : prefix_map := {[ "ex" := "http://example.org/" ]} in
  registered pm "ex:1"
  ∧ (¬ ∃ valid_url,
         Some <$> expand_compress valid_url pm "ex:1" = standardize valid_url pm "ex:1")
  ∧ registered pm "http://example.org/1"
  ∧ expand_compress http_url pm "http://example.org/1" = Ok "http://example.org/1"
  ∧ standardize http_url pm "http://example.org/1" = Ok (Some "ex:1").
Proof.
  split; [right; by vm_compute|]. split; [|by vm_compute; auto].
  intros [valid_url H]. unfold expand_compress, standardize in H. simpl in H.
  unfold compress_safe, expand_safe, validate in H.
  replace (uri_prefix_known _ "ex:1") with false in H by by vm_compute.
  replace (curie_prefix_known _ "ex:1") with true in H by by vm_compute.
  simpl in H.
  unfold validate in H.
  replace (uri_prefix_known _ "ex:1") with false in H by by vm_compute.
  replace (curie_prefix_known _ "ex:1") with true in H by by vm_compute.
  simpl in H.
  replace (lib_expand _ "ex:1") with (Ok (Some "http://example.org/1")) in H
    by by vm_compute.
  simpl in H.
  replace (uri_prefix_known _ "http://example.org/1") with true in H by by vm_compute.
  destruct (valid_url "http://example.org/1"); simpl in H; [|done].
  replace (lib_compress _ "http://example.org/1") with (Some "ex:1") in H
    by by vm_compute.
  done.
Qed.

(** ** The mapping store *)

Section Mapping_claims.
Variable valid_url : string → bool.

Lemma set_value_with_data m d it :
  Mapping.set_value valid_url (with_data m d) it = Mapping.set_value valid_url m it.
Proof. done. Qed.

(** What a successful [set] leaves behind: the key is bound to the
    stored form of the item. *)
Lemma set_Ok key it m m1 :
  Mapping.set valid_url key it m = (Ok (), m1) →
  ∃ ekey value,
    expand valid_url (curie_converter m) safe key = Ok ekey
    ∧ Mapping.set_value valid_url m it = Ok value
    ∧ data m1 !! ekey = Some value
    ∧ (m1 = m ∨ (data m !! ekey = None
                 ∧ m1 = with_data m (<[ekey := value]> (data m)))).
Proof.
  unfold Mapping.set.
  destruct (expand valid_url (curie_converter m) safe key) as [ekey|]; [|done].
  destruct (Mapping.set_value valid_url m it) as [value|]; [|done].
  destruct (data m !! ekey) as [old|] eqn:Hold.
  - case_decide; [|done]. intros [= <-]. exists ekey, value.
    subst. eauto.
  - intros [= <-]. exists ekey, value. simpl. rewrite lookup_insert_eq. eauto 10.
Qed.

Lemma set_existing key it m ekey value old :
  expand valid_url (curie_converter m) safe key = Ok ekey →
  Mapping.set_value valid_url m it = Ok value →
  data m !! ekey = Some old →
  Mapping.set valid_url key it m =
    (if decide (value = old) then Ok () else Raise (RecordExists ekey), m).
Proof.
  intros He Hv Ho. unfold Mapping.set. rewrite He, Hv, Ho. by case_decide.
Qed.

End Mapping_claims.

(** C7: after [set(k, v)], a second [set(k, v)] changes nothing, and
    [set(k, v2)] whose record differs from the stored one raises
    [RecordExists] and leaves the store as it was. *)
Theorem C7_set_twice valid_url k v v2 m m1 ekey value2 old :
  Mapping.set valid_url k v m = (Ok (), m1) →
  expand valid_url (curie_converter m1) safe k = Ok ekey →
  data m1 !! ekey = Some old →
  Mapping.set_value valid_url m1 v2 = Ok value2 →
  value2 ≠ old →
  Mapping.set valid_url k v m1 = (Ok (), m1)
  ∧ Mapping.set valid_url k v2 m1 = (Raise (RecordExists ekey), m1).
Proof.
  intros Hset He Ho Hv2 Hne.
  apply set_Ok in Hset as (ekey' & value & He' & Hv & Hd & Hm1).
  assert (curie_converter m1 = curie_converter m) as Hc
    by (by destruct Hm1 as [->|[_ ->]]).
  assert (Mapping.set_value valid_url m1 v = Ok value) as Hv1
    by (by destruct Hm1 as [->|[_ ->]]).
  rewrite Hc in He.
  assert (ekey' = ekey) as -> by congruence.
  assert (old = value) as -> by congruence.
  rewrite <- Hc in He. split.
  - rewrite (set_existing _ _ _ _ _ _ _ He Hv1 Hd). by rewrite decide_True.
  - rewrite (set_existing _ _ _ _ _ _ _ He Hv2 Hd). by rewrite decide_False.
Qed.

Lemma C7_witness :
  let pm : prefix_map := {[ "ex" := "http://example.org/" ]} in
  let m := mkMapping pm ∅ default_defaults None [] in
  let m1 := with_data m {[ "http://example.org/1" :=
                             ({[ "object_id" := "http://example.org/2" ]} : record) ]} in
  Mapping.set (λ _, true) "ex:1" (ItemStr "ex:2") m1 = (Ok (), m1)
  ∧ Mapping.set (λ _, true) "ex:1" (ItemStr "ex:3") m1
    = (Raise (RecordExists "http://example.org/1"), m1).
Proof.
  intros pm m m1.
  apply (C7_set_twice (λ _, true) "ex:1" (ItemStr "ex:2") (ItemStr "ex:3") m m1
           "http://example.org/1" {[ "object_id" := "http://example.org/3" ]}
           {[ "object_id" := "http://example.org/2" ]}).
  - vm_compute; reflexivity.
  - vm_compute; reflexivity.
  - vm_compute; reflexivity.
  - vm_compute; reflexivity.
  - intros H. apply (f_equal (λ r : record, r !! "object_id")) in H.
    vm_compute in H. discriminate.
Defined.

(** C10: [Mapping.__setitem__] raises [RecordExists] for a key that is
    already in the store and leaves the store as it was, also when the
    value is the stored one, in which case [set] returns without error. *)
Theorem C10_setitem_existing valid_url key value m ekey r :
  expand valid_url (curie_converter m) safe key = Ok ekey →
  data m !! ekey = Some r →
  Mapping.setitem valid_url key value m = (Raise (RecordExists ekey), m)
  ∧ (∀ e, expand valid_url (curie_converter m) safe value = Ok e →
          r = {[ "object_id" := e ]} →
          Mapping.set valid_url key (ItemStr value) m = (Ok (), m)).
Proof.
  intros He Hr. split.
  - unfold Mapping.setitem. rewrite He, Hr. by rewrite decide_True by eauto.
  - intros e Hv ->. erewrite set_existing; [|done| |done].
    + by rewrite decide_True.
    + simpl. simpl in Hv. by rewrite Hv.
Qed.

Lemma C10_witness :
  let pm : prefix_map := {[ "ex" := "http://example.org/" ]} in
  let m := mkMapping pm {[ "http://example.org/1" :=
                             ({[ "object_id" := "http://example.org/2" ]} : record) ]}
             default_defaults None [] in
  Mapping.setitem (λ _, true) "ex:1" "ex:2" m
    = (Raise (RecordExists "http://example.org/1"), m)
  ∧ Mapping.set (λ _, true) "ex:1" (ItemStr "ex:2") m = (Ok (), m).
Proof.
  intros pm m.
  destruct (C10_setitem_existing (λ _, true) "ex:1" "ex:2" m "http://example.org/1"
              {[ "object_id" := "http://example.org/2" ]}) as [H1 H2].
  - vm_compute; reflexivity.
  - vm_compute; reflexivity.
  - split; [exact H1|]. apply (H2 "http://example.org/2"); vm_compute; reflexivity.
Defined.

(** ** Saving the store *)

Lemma mapM_result_Ok {A B} (f : A → result B) (l : list A) :
  (∀ x, x ∈ l → ∃ y, f x = Ok y) →
  ∃ ys, mapM (M := result) f l = Ok ys ∧ Forall2 (λ x y, f x = Ok y) l ys.
Proof.
  induction l as [|x l IH]; intros Hf; simpl.
  - exists []. split; [done|constructor].
  - destruct (Hf x) as [y Hy]; [by left|].
    destruct IH as (ys & Hys & HF); [intros; apply Hf; by right|].
    exists (y :: ys). rewrite Hy. simpl. rewrite Hys. simpl. split; [done|].
    by constructor.
Qed.

Lemma mapM_result_length {A B} (f : A → result B) (l : list A) ys :
  mapM (M := result) f l = Ok ys → length ys = length l.
Proof.
  revert ys. induction l as [|x l IH]; intros ys; simpl.
  - by intros [= <-].
  - destruct (f x); simpl; [|done].
    destruct (mapM f l) eqn:E; simpl; [|done]. intros [= <-]. simpl.
    f_equal. by apply IH.
Qed.

Section Save_claims.
Variable yaml_dump : Preamble → string.

Lemma used_columns_spec m c :
  c ∈ Mapping.used_columns m ↔ ∃ k r, data m !! k = Some r ∧ is_Some (r !! c).
Proof.
  unfold Mapping.used_columns. rewrite elem_of_union_list. split.
  - intros (X & HX & Hc).
    apply list_elem_of_fmap in HX as (r & -> & Hr).
    apply list_elem_of_fmap in Hr as ([k r'] & -> & Hkr).
    apply elem_of_map_to_list in Hkr. exists k, r'. split; [done|].
    by apply elem_of_dom.
  - intros (k & r & Hk & Hc). exists (dom r). split; [|by apply elem_of_dom].
    apply list_elem_of_fmap. exists r. split; [done|].
    apply list_elem_of_fmap. exists (k, r). split; [done|].
    by apply elem_of_map_to_list.
Qed.

Lemma save_columns_spec m c :
  c ∈ Mapping.save_columns m ↔
  c ∈ SSSOM_columns
  ∧ (c ∈ Mapping.used_columns m ∨ c ∈ dom (defaults m) ∨ c = "subject_id").
Proof.
  unfold Mapping.save_columns, Mapping.all_columns.
  rewrite list_elem_of_filter, !elem_of_union, elem_of_singleton. tauto.
Qed.

Lemma save_columns_head m :
  ∃ rest, Mapping.save_columns m = "subject_id" :: rest.
Proof.
  unfold Mapping.save_columns, SSSOM_columns.
  rewrite filter_cons_True; [eauto|].
  unfold Mapping.all_columns. rewrite !elem_of_union, elem_of_singleton. tauto.
Qed.

Lemma get_values_Ok m key columns r :
  data m !! expand_fast (curie_converter m) key = Some r →
  ∃ vs, Mapping.get_values key columns m = Ok vs ∧ length vs = length columns.
Proof.
  intros Hr. unfold Mapping.get_values.
  edestruct (mapM_result_Ok
    (λ md, match data m !! expand_fast (curie_converter m) key with
           | None => Raise (KeyError (expand_fast (curie_converter m) key))
           | Some r =>
               Ok (Mapping.compress_fast_opt (curie_converter m)
                     (match r !! md with
                      | Some v => Some v
                      | None => defaults m !! md
                      end))
           end) columns) as (vs & Hvs & _).
  { intros md _. rewrite Hr. eauto. }
  exists vs. split; [done|]. by eapply mapM_result_length.
Qed.

End Save_claims.

(** C9 at a store the code can hold: the row [("GO:1", "ex:2")] is
    loaded without checks over a table that binds [ex] only, so the key
    stays as written; the prefix [GO] is bound afterwards, as
    [populate_prefixes] does.  Before the prefix is bound [save_to_file]
    writes the preamble, the header and the one row of the key.
    Afterwards [__iter__] still yields the key [GO:1], [get_values]
    expands it under the new table and looks the expanded form up, and the
    save stops with [KeyError] in place of the row of the stored key. *)
Theorem C9_save_to_file_key_error yaml_dump :
  ∃ m0 pm,
    MappingInit.init http_url (Some demo_prefixes) [("GO:1", ItemStr "ex:2")] None
      default_defaults false = Ok m0
    ∧ data m0 = {[ "GO:1" := {[ "object_id" := "http://example.org/2" ]} ]}
    ∧ Mapping.save_to_file yaml_dump m0
      = Ok (Mapping.preamble_lines yaml_dump m0
            ++ [ join_tab ["subject_id"; "predicate_id"; "object_id";
                           "mapping_justification"] +:+ String "010"%char "";
                 join_tab ["GO:1"; "skos:exactMatch"; "ex:2";
                           "semapv:LexicalMatching"] +:+ String "010"%char "" ])
    ∧ add_prefix "GO" "http://purl.obolibrary.org/obo/GO_" (curie_converter m0) = Ok pm
    ∧ Mapping.iter (with_converter m0 pm) = ["GO:1"]
    ∧ Mapping.save_to_file yaml_dump (with_converter m0 pm)
      = Raise (KeyError "http://purl.obolibrary.org/obo/GO_1").
Proof.
  eexists _, _. split; [vm_compute; reflexivity|].
  split; [vm_compute; reflexivity|].
  split; [reflexivity|].
  split; [vm_compute; reflexivity|].
  split; [vm_compute; reflexivity|].
  vm_compute. reflexivity.
Qed.

(** ** Decimal forms *)

Lemma digit_of_pretty_N_char d :
  (d < 10)%N → digit_of (pretty_N_char d) = Some (Z.of_N d).
Proof.
  intros Hd.
  assert (d = 0 ∨ d = 1 ∨ d = 2 ∨ d = 3 ∨ d = 4 ∨ d = 5 ∨ d = 6 ∨ d = 7
          ∨ d = 8 ∨ d = 9)%N as H by lia.
  repeat (destruct H as [->|H]; [reflexivity|]). by subst.
Qed.

Lemma int_digits_pretty_N_go x s b :
  (0 < x)%N → int_digits (pretty_N_go x s) 0 b = int_digits s (Z.of_N x) true.
Proof.
  revert s b. induction (N.lt_wf_0 x) as [x _ IH]; intros s b Hx.
  rewrite pretty_N_go_step by done.
  destruct (N.eq_0_gt_0_cases (x `div` 10)) as [H0|Hpos].
  - rewrite H0, pretty_N_go_0. simpl.
    rewrite digit_of_pretty_N_char by (apply N.mod_lt; lia).
    f_equal. apply N.div_small_iff in H0; [|lia].
    rewrite N.mod_small by done. lia.
  - rewrite IH; [|apply N.div_lt; lia|done]. simpl.
    rewrite digit_of_pretty_N_char by (apply N.mod_lt; lia).
    f_equal. rewrite N2Z.inj_div, N2Z.inj_mod. simpl Z.of_N.
    pose proof (Z.div_mod (Z.of_N x) 10). lia.
Qed.

Lemma pretty_N_go_head x s :
  (0 < x)%N → ∃ a t, pretty_N_go x s = String a t ∧ is_Some (digit_of a).
Proof.
  revert s. induction (N.lt_wf_0 x) as [x _ IH]; intros s Hx.
  rewrite pretty_N_go_step by done.
  destruct (N.eq_0_gt_0_cases (x `div` 10)) as [H0|Hpos].
  - rewrite H0, pretty_N_go_0. eexists _, _. split; [done|].
    rewrite digit_of_pretty_N_char by (apply N.mod_lt; lia). eauto.
  - apply IH; [apply N.div_lt; lia|done].
Qed.

Lemma int_digits_zeros k s b :
  int_digits (zeros k +:+ s) 0 b
  = int_digits s 0 (match k with O => b | S _ => true end).
Proof.
  revert b. induction k as [|k IH]; intros b; [done|].
  simpl. rewrite IH. by destruct k.
Qed.

Lemma int_digits_padded k (x : N) b :
  int_digits (zeros k +:+ pretty x) 0 b = Some (Z.of_N x).
Proof.
  rewrite int_digits_zeros. unfold pretty, pretty_N. case_decide as Hx.
  - subst. by destruct k.
  - rewrite int_digits_pretty_N_go by lia. done.
Qed.

Lemma padded_head k (x : N) :
  ∃ a t, zeros k +:+ pretty x = String a t ∧ is_Some (digit_of a).
Proof.
  destruct k as [|k]; simpl.
  - unfold pretty, pretty_N. case_decide.
    + eexists _, _. split; [done|]. by eexists.
    + apply pretty_N_go_head. lia.
  - eexists _, _. split; [done|]. by eexists.
Qed.

Lemma int_of_string_digit a t :
  is_Some (digit_of a) →
  int_of_string (String a t) = int_digits (String a t) 0 false.
Proof.
  intros [d Hd].
  destruct a as [[] [] [] [] [] [] [] []]; try (by vm_compute in Hd); reflexivity.
Qed.

(** [int] reads back what the zero-padded format writes. *)
Lemma int_of_string_zfmt w n : int_of_string (zfmt w n) = Some n.
Proof.
  unfold zfmt. destruct (n <? 0) eqn:Hn.
  - apply Z.ltb_lt in Hn. unfold int_of_string. simpl.
    rewrite int_digits_padded. simpl. f_equal. lia.
  - apply Z.ltb_ge in Hn.
    destruct (padded_head (w - String.length (pretty (Z.abs_N n))) (Z.abs_N n))
      as (a & t & Heq & Ha).
    rewrite Heq, int_of_string_digit by done. rewrite <- Heq.
    rewrite int_digits_padded. f_equal. lia.
Qed.

Lemma zfmt_inj w n n' : zfmt w n = zfmt w n' → n = n'.
Proof.
  intros H. apply (f_equal int_of_string) in H.
  rewrite !int_of_string_zfmt in H. congruence.
Qed.

Lemma py_int_zfmt w n : py_int (PyStr (zfmt w n)) = Ok n.
Proof. simpl. by rewrite int_of_string_zfmt. Qed.

(** ** The domain code registry *)

Lemma format_domain_code_Ok c code :
  DomainCodes.format_domain_code c = Ok code →
  ∃ n, py_int c = Ok n ∧ code = zfmt 2 n.
Proof.
  unfold DomainCodes.format_domain_code. destruct (py_int c) as [n|]; [|done].
  intros [= <-]. eauto.
Qed.

Lemma format_domain_code_py_int c n :
  py_int c = Ok n → DomainCodes.format_domain_code c = Ok (zfmt 2 n).
Proof. unfold DomainCodes.format_domain_code. by intros ->. Qed.

(** The source's checks in one place: what [__setitem__] does once the
    code is formatted. *)
Lemma dc_setitem_unfold domain c n dc :
  py_int c = Ok n →
  DomainCodes.setitem domain c dc =
    if decide (dc_data dc !! domain = Some (zfmt 2 n)) then (Ok (), dc)
    else if negb (DomainCodes.domain_ok domain)
    then (Raise (AssertionError DomainHasWhitespace), dc)
    else if negb ((0 <=? n) && (n <? 100))
    then (Raise (AssertionError DomainCodeOutOfBounds), dc)
    else if decide (is_Some (dc_data dc !! domain))
    then (Raise (AssertionError DomainAlreadyRegistered), dc)
    else if decide (is_Some (reverse_map dc !! zfmt 2 n))
    then (Raise (AssertionError DomainCodeAlreadyRegistered), dc)
    else (Ok (),
          {| dc_data := <[domain := zfmt 2 n]> (dc_data dc);
             reverse_map := <[zfmt 2 n := domain]> (reverse_map dc) |}).
Proof.
  intros Hc. unfold DomainCodes.setitem.
  rewrite (format_domain_code_py_int _ _ Hc), py_int_zfmt. done.
Qed.

Lemma dc_setitem_Ok domain c dc dc' :
  DomainCodes.setitem domain c dc = (Ok (), dc') →
  ∃ n, py_int c = Ok n
       ∧ dc_data dc' !! domain = Some (zfmt 2 n)
       ∧ (dc' = dc
          ∨ (DomainCodes.domain_ok domain = true ∧ 0 ≤ n < 100
             ∧ dc_data dc !! domain = None
             ∧ reverse_map dc !! zfmt 2 n = None
             ∧ dc' = {| dc_data := <[domain := zfmt 2 n]> (dc_data dc);
                        reverse_map := <[zfmt 2 n := domain]> (reverse_map dc) |})).
Proof.
  destruct (py_int c) as [n|] eqn:Hc.
  - rewrite (dc_setitem_unfold _ _ _ _ Hc). intros H. exists n. split; [done|].
    revert H.
    case_decide as Hpair; [intros [= <-]; eauto|].
    destruct (DomainCodes.domain_ok domain) eqn:Hok; simpl; [|done].
    destruct ((0 <=? n) && (n <? 100)) eqn:Hrange; simpl; [|done].
    case_decide as Hd; [done|]. case_decide as Hr; [done|].
    intros [= <-]. simpl. rewrite lookup_insert_eq. split; [done|]. right.
    apply andb_prop in Hrange as [?%Z.leb_le ?%Z.ltb_lt].
    split_and!; try done.
    + by apply eq_None_not_Some.
    + by apply eq_None_not_Some.
  - unfold DomainCodes.setitem, DomainCodes.format_domain_code. by rewrite Hc.
Qed.

Lemma registry_valid_empty : registry_valid DomainCodes.empty.
Proof.
  split.
  - intros d c. simpl. by rewrite !lookup_empty.
  - intros d c. simpl. by rewrite lookup_empty.
Qed.

Lemma registry_valid_setitem domain c dc dc' :
  registry_valid dc → DomainCodes.setitem domain c dc = (Ok (), dc') →
  registry_valid dc'.
Proof.
  intros [Hcons Hval] (n & Hc & _ & [->|(Hok & Hn & Hd & Hr & ->)])%dc_setitem_Ok;
    [done|].
  split.
  - intros d c'. simpl.
    destruct (decide (d = domain)) as [->|Hne], (decide (c' = zfmt 2 n)) as [->|Hne'].
    + by rewrite !lookup_insert_eq.
    + rewrite lookup_insert_eq, lookup_insert_ne by done. split.
      * congruence.
      * intros ?%Hcons. congruence.
    + rewrite lookup_insert_ne, lookup_insert_eq by done. split.
      * intros ?%Hcons. congruence.
      * congruence.
    + rewrite !lookup_insert_ne by done. apply Hcons.
  - intros d c'. simpl. destruct (decide (d = domain)) as [->|Hne].
    + rewrite lookup_insert_eq. intros [= <-]. eauto.
    + rewrite lookup_insert_ne by done. apply Hval.
Qed.

Lemma registry_valid_load l dc dc' :
  registry_valid dc → DomainCodes.load l dc = (Ok (), dc') → registry_valid dc'.
Proof.
  revert dc. induction l as [|[d c] l IH]; intros dc Hv; simpl.
  - by intros [= <-].
  - destruct (DomainCodes.setitem d c dc) as [[[]|e] dc1] eqn:Hs; [|done].
    intros Hl. eapply IH; [|done]. by eapply registry_valid_setitem.
Qed.

(** C8: in a registry built by registrations, after [d] is registered
    with code [c], the two-digit form of [c] looks [d] up (for "finance"
    and 7, code "07" gives "finance"); registering the same pair again
    changes nothing; a second one-word domain with the same code, and the
    same domain with another code from 0 to 99, raise one of the two
    already-registered assertions and leave the registry as it was. *)
Theorem C8_domain_registry d c n dc dc1 :
  registry_valid dc →
  py_int c = Ok n →
  DomainCodes.setitem d c dc = (Ok (), dc1) →
  DomainCodes.get_domain (PyStr (zfmt 2 n)) dc1 = Ok d
  ∧ DomainCodes.setitem d c dc1 = (Ok (), dc1)
  ∧ (∀ d2, d2 ≠ d → DomainCodes.domain_ok d2 = true →
       ∃ e, DomainCodes.setitem d2 (PyStr (zfmt 2 n)) dc1 = (Raise e, dc1)
            ∧ DomainCodes.DomainRegistrationConflict e)
  ∧ (∀ c2 n2, py_int c2 = Ok n2 → 0 ≤ n2 < 100 → n2 ≠ n →
       ∃ e, DomainCodes.setitem d c2 dc1 = (Raise e, dc1)
            ∧ DomainCodes.DomainRegistrationConflict e).
Proof.
  intros Hvalid Hc Hset.
  pose proof (registry_valid_setitem _ _ _ _ Hvalid Hset) as [Hcons1 Hval1].
  apply dc_setitem_Ok in Hset as (n' & Hc' & Hd1 & _).
  assert (n' = n) as -> by congruence.
  destruct (Hval1 _ _ Hd1) as (Hok & m & Hm & Heq). apply zfmt_inj in Heq as <-.
  pose proof (proj1 (Hcons1 _ _) Hd1) as Hr1.
  split_and!.
  - unfold DomainCodes.get_domain.
    rewrite (format_domain_code_py_int _ _ (py_int_zfmt 2 n)). simpl.
    by rewrite Hr1.
  - rewrite (dc_setitem_unfold _ _ _ _ Hc). by rewrite decide_True.
  - intros d2 Hne Hok2. rewrite (dc_setitem_unfold _ _ _ _ (py_int_zfmt 2 n)).
    rewrite decide_False; last first.
    { intros ?%Hcons1. congruence. }
    rewrite Hok2. simpl.
    replace ((0 <=? n) && (n <? 100)) with true by (symmetry; apply andb_true_iff; lia).
    simpl. case_decide.
    + eexists. split; [done|]. by left.
    + rewrite decide_True by eauto. eexists. split; [done|]. by right.
  - intros c2 n2 Hc2 Hn2 Hne. rewrite (dc_setitem_unfold _ _ _ _ Hc2).
    rewrite decide_False; last first.
    { rewrite Hd1. intros [= ?%zfmt_inj]. done. }
    rewrite Hok. simpl.
    replace ((0 <=? n2) && (n2 <? 100)) with true by (symmetry; apply andb_true_iff; lia).
    simpl. rewrite decide_True by eauto. eexists. split; [done|]. by left.
Qed.

Lemma C8_witness :
  ∃ dc1,
    DomainCodes.setitem "finance" (PyInt 7) DomainCodes.empty = (Ok (), dc1)
    ∧ DomainCodes.get_domain (PyStr "07") dc1 = Ok "finance"
    ∧ DomainCodes.setitem "finance" (PyInt 7) dc1 = (Ok (), dc1)
    ∧ (∃ e, DomainCodes.setitem "hr" (PyStr "07") dc1 = (Raise e, dc1)
            ∧ DomainCodes.DomainRegistrationConflict e)
    ∧ (∃ e, DomainCodes.setitem "finance" (PyInt 8) dc1 = (Raise e, dc1)
            ∧ DomainCodes.DomainRegistrationConflict e).
Proof.
  eexists. split; [vm_compute; reflexivity|].
  destruct (C8_domain_registry "finance" (PyInt 7) 7 DomainCodes.empty _
              registry_valid_empty eq_refl eq_refl) as (H1 & H2 & H3 & H4).
  split; [exact H1|]. split; [exact H2|]. split.
  - apply (H3 "hr"); [done|by vm_compute].
  - apply (H4 (PyInt 8) 8); [done|lia|lia].
Defined.

(** ** The identifier minter *)

Section Minter_claims.
Variable valid_url : string → bool.

Lemma with_next_same st : NNURIs.with_next st (nextNNID_ st) = st.
Proof. by destruct st. Qed.

Lemma format_NNURI_with_next st n v :
  NNURIs.format_NNURI (NNURIs.with_next st n) v = NNURIs.format_NNURI st v.
Proof. done. Qed.

(** The serial as text names the same identifier as the counter. *)
Lemma format_NNURI_serial st n :
  NNURIs.format_NNURI st (PyStr (zfmt 6 n)) = NNURIs.format_NNURI st (PyInt n).
Proof. unfold NNURIs.format_NNURI. by rewrite py_int_zfmt. Qed.

Lemma skip_in_use_spec fuel st r st' :
  NNURIs.skip_in_use fuel st = (r, st') →
  st' = NNURIs.with_next st (nextNNID_ st')
  ∧ nextNNID_ st ≤ nextNNID_ st'
  ∧ (r = Ok () →
     ∃ u, NNURIs.format_NNURI st (PyInt (nextNNID_ st')) = Ok u ∧ u ∉ NNURIs_ st).
Proof.
  revert st. induction fuel as [|fuel IH]; intros st; simpl.
  all: destruct (NNURIs.format_NNURI st (PyInt (nextNNID_ st))) as [u|] eqn:Hu;
    [|intros [= <- <-]; by rewrite with_next_same].
  all: case_decide as Hin;
    [|intros [= <- <-]; rewrite with_next_same; eauto 6 with lia].
  all: destruct (nextNNID_ st + 1 <? maxID_ st); simpl;
    try (intros [= <- <-]; by rewrite with_next_same).
  intros (Hst & Hle & Hok)%IH. simpl in *. split_and!.
  - rewrite Hst at 1. by destruct st.
  - lia.
  - done.
Qed.

(** A turn that finds the candidate free needs no fuel. *)
Lemma skip_in_use_free fuel st u :
  NNURIs.format_NNURI st (PyInt (nextNNID_ st)) = Ok u → u ∉ NNURIs_ st →
  NNURIs.skip_in_use fuel st = (Ok (), st).
Proof. intros Hu Hin. destruct fuel; simpl; rewrite Hu; by rewrite decide_False. Qed.

(** Past the bound of the loop the fuel does not matter. *)
Lemma skip_in_use_fuel fuel fuel' st :
  maxID_ st - nextNNID_ st ≤ Z.of_nat fuel →
  maxID_ st - nextNNID_ st ≤ Z.of_nat fuel' →
  NNURIs.skip_in_use fuel st = NNURIs.skip_in_use fuel' st.
Proof.
  revert fuel' st. induction fuel as [|fuel IH]; intros [|fuel'] st H1 H2; simpl.
  all: destruct (NNURIs.format_NNURI st (PyInt (nextNNID_ st))); [|done].
  all: case_decide; [|done].
  all: destruct (nextNNID_ st + 1 <? maxID_ st) eqn:Hlt; simpl; [|done].
  all: apply Z.ltb_lt in Hlt; try lia.
  apply IH; simpl; lia.
Qed.

Lemma nextNNID_Ok st s st1 :
  NNURIs.nextNNID st = (Ok s, st1) →
  s = zfmt 6 (nextNNID_ st1)
  ∧ st1 = NNURIs.with_next st (nextNNID_ st1)
  ∧ nextNNID_ st ≤ nextNNID_ st1
  ∧ ∃ u, NNURIs.format_NNURI st (PyInt (nextNNID_ st1)) = Ok u ∧ u ∉ NNURIs_ st.
Proof.
  unfold NNURIs.nextNNID.
  destruct (NNURIs.skip_in_use _ st) as [[[]|e] st'] eqn:Hs; [|done].
  intros [= <- <-]. apply skip_in_use_spec in Hs as (? & ? & Hu). auto.
Qed.

Lemma nextNNID_state st r st1 :
  NNURIs.nextNNID st = (r, st1) → st1 = NNURIs.with_next st (nextNNID_ st1).
Proof.
  unfold NNURIs.nextNNID.
  destruct (NNURIs.skip_in_use _ st) as [[[]|e] st'] eqn:Hs.
  all: intros [= <- <-]; by apply skip_in_use_spec in Hs as (? & _).
Qed.

(** Without a commit the next call finds the same candidate. *)
Lemma nextNNID_again st s st1 :
  NNURIs.nextNNID st = (Ok s, st1) → NNURIs.nextNNID st1 = (Ok s, st1).
Proof.
  intros (-> & Hst & _ & u & Hu & Hin)%nextNNID_Ok.
  unfold NNURIs.nextNNID. rewrite (skip_in_use_free _ st1 u); [done| |].
  - rewrite Hst at 1. by rewrite format_NNURI_with_next.
  - rewrite Hst. done.
Qed.

Lemma nn_getitem_Ok key st r :
  NNURIs.getitem valid_url key st = Ok r →
  ∃ ekey rec oid,
    expand valid_url (curie_converter (store st)) safe key = Ok ekey
    ∧ data (store st) !! ekey = Some rec ∧ rec !! "object_id" = Some oid
    ∧ r = compress_fast (curie_converter (store st)) oid.
Proof.
  unfold NNURIs.getitem, Mapping.getitem.
  destruct (expand valid_url _ safe key) as [ekey|]; [|done]. simpl.
  destruct (data (store st) !! ekey) as [rec|] eqn:Hrec; [|done].
  destruct (rec !! "object_id") as [oid|] eqn:Hoid; [|done].
  intros [= <-]. by exists ekey, rec, oid.
Qed.

Lemma nn_setitem_Ok key value st st2 :
  NNURIs.setitem valid_url key value st = (Ok (), st2) →
  ∃ ekey e,
    expand valid_url (curie_converter (store st)) safe key = Ok ekey
    ∧ expand valid_url (curie_converter (store st)) safe value = Ok e
    ∧ data (store st) !! ekey = None
    ∧ st2 = NNURIs.with_in_use
              (NNURIs.with_store st
                 (with_data (store st)
                    (<[ekey := {[ "object_id" := e ]}]> (data (store st)))))
              ({[ e ]} ∪ NNURIs_ st).
Proof.
  unfold NNURIs.setitem, Mapping.setitem. simpl.
  destruct (expand_safe valid_url _ key) as [ekey|] eqn:Hk; [|done].
  case_decide as Hin; [done|].
  destruct (expand_safe valid_url _ value) as [e|] eqn:He; [|done].
  simpl. rewrite He. intros [= <-]. exists ekey, e. split_and!; try done.
  by apply eq_None_not_Some.
Qed.

(** The two ways [get] returns: the stored identifier, or a mint. *)
Lemma nn_get_Ok key st r st' :
  NNURIs.get valid_url key st = (Ok r, st') →
  (NNURIs.getitem valid_url key st = Ok r ∧ st' = st)
  ∨ ∃ ekey n u e,
      expand valid_url (curie_converter (store st)) safe key = Ok ekey
      ∧ data (store st) !! ekey = None
      ∧ nextNNID_ st ≤ n
      ∧ NNURIs.format_NNURI st (PyInt n) = Ok u ∧ (u ∉ NNURIs_ st)
      ∧ expand valid_url (curie_converter (store st)) safe u = Ok e
      ∧ r = compress_fast (curie_converter (store st)) e
      ∧ st' = NNURIs.with_in_use
                (NNURIs.with_store (NNURIs.with_next st n)
                   (with_data (store st)
                      (<[ekey := {[ "object_id" := e ]}]> (data (store st)))))
                ({[ e ]} ∪ NNURIs_ st).
Proof.
  unfold NNURIs.get.
  destruct (NNURIs.getitem valid_url key st) as [v|e0] eqn:Hg.
  { intros [= <- <-]. by left. }
  destruct (is_KeyError e0); [|done].
  destruct (NNURIs.nextNNID st) as [[serial|] st1] eqn:Hn; [|done].
  apply nextNNID_Ok in Hn as (-> & Hst1 & Hle & u & Hu & Hin).
  rewrite format_NNURI_serial. rewrite Hst1 at 1.
  rewrite format_NNURI_with_next, Hu.
  destruct (NNURIs.setitem valid_url key u st1) as [[[]|] st2] eqn:Hs; [|done].
  apply nn_setitem_Ok in Hs as (ekey & e & Hk & He & Hd & ->).
  intros [= Hr <-]. right. exists ekey, (nextNNID_ st1), u, e.
  rewrite Hst1 in Hk, He, Hd. simpl in Hk, He, Hd.
  split_and!; try done.
  - unfold NNURIs.getitem, Mapping.getitem in Hr. simpl in Hr.
    rewrite Hst1 in Hr. simpl in Hr. rewrite Hk in Hr. simpl in Hr.
    rewrite lookup_insert_eq in Hr. simpl in Hr.
    rewrite lookup_singleton_eq in Hr. by injection Hr.
  - rewrite Hst1. by destruct st.
Qed.

(** [get] never changes the converter or the domain code and only adds
    to the identifiers in use. *)
Lemma nn_get_frame key st r st' :
  NNURIs.get valid_url key st = (r, st') →
  curie_converter (store st') = curie_converter (store st)
  ∧ domain_code_ st' = domain_code_ st
  ∧ NNURIs_ st ⊆ NNURIs_ st'.
Proof.
  unfold NNURIs.get.
  destruct (NNURIs.getitem valid_url key st) as [v|e0].
  { by intros [= <- <-]. }
  destruct (is_KeyError e0); [|by intros [= <- <-]].
  destruct (NNURIs.nextNNID st) as [[serial|] st1] eqn:Hn;
    apply nextNNID_state in Hn; [|intros [= <- <-]; by rewrite Hn].
  destruct (NNURIs.format_NNURI st1 (PyStr serial));
    [|intros [= <- <-]; by rewrite Hn].
  unfold NNURIs.setitem, Mapping.setitem. simpl.
  destruct (expand_safe valid_url (curie_converter (store st1)) key) as [ekey|];
    [|intros [= <- <-]; by rewrite Hn].
  case_decide; [intros [= <- <-]; by rewrite Hn|].
  destruct (expand_safe valid_url (curie_converter (store st1)) a) as [e|] eqn:He;
    [|intros [= <- <-]; by rewrite Hn].
  simpl. rewrite He. intros [= <- <-]. rewrite Hn. simpl. set_solver.
Qed.

Lemma gets_from_frame st0 st :
  gets_from valid_url st0 st →
  curie_converter (store st) = curie_converter (store st0)
  ∧ domain_code_ st = domain_code_ st0
  ∧ NNURIs_ st0 ⊆ NNURIs_ st.
Proof.
  induction 1 as [|st key r st' _ (IH1 & IH2 & IH3) Hget]; [done|].
  apply nn_get_frame in Hget as (H1 & H2 & H3).
  split_and!; [congruence|congruence|set_solver].
Qed.

(** The set snapshotted at construction holds every stored object
    identifier. *)
Lemma object_ids_spec d s k rec oid :
  NNURIs.object_ids d = Ok s →
  d !! k = Some rec → rec !! "object_id" = Some oid → oid ∈ s.
Proof.
  unfold NNURIs.object_ids. intros Hs Hk Ho.
  destruct (mapM _ _) as [ys|] eqn:Hm; [|done]. simpl in Hs. simplify_eq.
  assert (rec ∈ (map_to_list d).*2) as Hin.
  { apply list_elem_of_fmap. exists (k, rec). split; [done|].
    by apply elem_of_map_to_list. }
  revert ys Hm. induction ((map_to_list d).*2) as [|r l IH]; intros ys; simpl.
  { by apply elem_of_nil in Hin. }
  destruct (r !! "object_id") as [o|] eqn:Hr; simpl; [|done].
  destruct (mapM _ l) as [ys'|] eqn:Hm'; simpl; [|done].
  intros [= <-]. apply elem_of_cons in Hin as [<-|Hin].
  - rewrite Ho in Hr. simplify_eq. set_solver.
  - specialize (IH Hin ys' eq_refl). set_solver.
Qed.

Lemma init_from_snapshot m domain domain_code st0 k rec oid :
  NNURIs.init_from m domain domain_code = Ok st0 →
  data m !! k = Some rec → rec !! "object_id" = Some oid → oid ∈ NNURIs_ st0.
Proof.
  unfold NNURIs.init_from. intros H Hk Ho.
  destruct (DomainCodes.init _) as [dc|]; [|done]. simpl in H.
  destruct (NNURIs.settle_domain_code _ _ _) as [[code dc']|]; [|done]. simpl in H.
  destruct (if decide _ then _ else _) as [pm|]; [|done]. simpl in H.
  destruct (NNURIs.object_ids (data m)) as [s|] eqn:Hs; [|done]. simpl in H.
  simplify_eq. simpl. by eapply object_ids_spec.
Qed.

(** The loop of [nextNNID] passes over identifiers in use only, keeps
    the ceiling, and stays below it. *)
Lemma skip_in_use_passed fuel st r st' :
  NNURIs.skip_in_use fuel st = (r, st') →
  maxID_ st' = maxID_ st
  ∧ (nextNNID_ st < maxID_ st → nextNNID_ st' < maxID_ st)
  ∧ ∀ k, nextNNID_ st ≤ k < nextNNID_ st' →
      ∃ u, NNURIs.format_NNURI st (PyInt k) = Ok u ∧ u ∈ NNURIs_ st.
Proof.
  revert st. induction fuel as [|fuel IH]; intros st; simpl.
  all: destruct (NNURIs.format_NNURI st (PyInt (nextNNID_ st))) as [u|] eqn:Hu;
    [|intros [= <- <-]; split_and!; [done..|intros; lia]].
  all: case_decide as Hin; [|intros [= <- <-]; split_and!; [done..|intros; lia]].
  all: destruct (nextNNID_ st + 1 <? maxID_ st) eqn:Hlt; simpl;
    try (intros [= <- <-]; split_and!; [done..|intros; lia]).
  apply Z.ltb_lt in Hlt.
  intros (Hmax & Hbound & Hpassed)%IH. simpl in *. split_and!.
  - done.
  - intros _. apply Hbound. lia.
  - intros k Hk. destruct (decide (k = nextNNID_ st)) as [->|Hne]; [eauto|].
    apply Hpassed. lia.
Qed.

Lemma nextNNID_bounds st r st1 :
  NNURIs.nextNNID st = (r, st1) →
  st1 = NNURIs.with_next st (nextNNID_ st1)
  ∧ nextNNID_ st ≤ nextNNID_ st1
  ∧ (nextNNID_ st < maxID_ st → nextNNID_ st1 < maxID_ st)
  ∧ ∀ k, nextNNID_ st ≤ k < nextNNID_ st1 →
      ∃ u, NNURIs.format_NNURI st (PyInt k) = Ok u ∧ u ∈ NNURIs_ st.
Proof.
  unfold NNURIs.nextNNID.
  destruct (NNURIs.skip_in_use _ st) as [[[]|e] st'] eqn:Hs.
  all: intros [= <- <-]; pose proof Hs as Hs';
    apply skip_in_use_spec in Hs as (? & ? & _);
    apply skip_in_use_passed in Hs' as (_ & ? & ?); done.
Qed.

(** What a [get] does to the state, whatever its outcome: the ceiling
    stays, the counter does not go back and stays below the ceiling,
    and either records and identifiers in use are as before or one
    record was added under a new key with its identifier put in use. *)
Lemma nn_get_outcome key st r st' :
  NNURIs.get valid_url key st = (r, st') →
  maxID_ st' = maxID_ st ∧ nextNNID_ st ≤ nextNNID_ st'
  ∧ (nextNNID_ st < maxID_ st → nextNNID_ st' < maxID_ st)
  ∧ ((data (store st') = data (store st) ∧ NNURIs_ st' = NNURIs_ st)
     ∨ ∃ ekey e,
         data (store st) !! ekey = None
         ∧ data (store st') = <[ekey := {[ "object_id" := e ]}]> (data (store st))
         ∧ NNURIs_ st' = {[ e ]} ∪ NNURIs_ st).
Proof.
  unfold NNURIs.get.
  destruct (NNURIs.getitem valid_url key st) as [v|e0].
  { intros [= <- <-]. split_and!; [done|lia|done|by left]. }
  destruct (is_KeyError e0);
    [|intros [= <- <-]; split_and!; [done|lia|done|by left]].
  destruct (NNURIs.nextNNID st) as [r1 st1] eqn:Hn.
  apply nextNNID_bounds in Hn as (Hst1 & Hle & Hlt & _).
  assert (maxID_ st1 = maxID_ st ∧ data (store st1) = data (store st)
          ∧ NNURIs_ st1 = NNURIs_ st) as (Hm1 & Hd1 & Hu1)
    by (rewrite Hst1; done).
  destruct r1 as [serial|e1];
    [|intros [= <- <-]; split_and!; [done..|left; done]].
  destruct (NNURIs.format_NNURI st1 (PyStr serial)) as [u|];
    [|intros [= <- <-]; split_and!; [done..|left; done]].
  unfold NNURIs.setitem, Mapping.setitem. simpl.
  destruct (expand_safe valid_url (curie_converter (store st1)) key) as [ekey|];
    [|intros [= <- <-]; split_and!; [done..|left; done]].
  case_decide as Hin; [intros [= <- <-]; split_and!; [done..|left; done]|].
  destruct (expand_safe valid_url (curie_converter (store st1)) u) as [e|] eqn:He;
    [|intros [= <- <-]; split_and!; [done..|left; done]].
  simpl. rewrite He. intros [= <- <-]. simpl.
  split_and!; [done..|]. right. exists ekey, e. rewrite <- Hd1, <- Hu1.
  split_and!; [|done..]. by apply eq_None_not_Some.
Qed.

Lemma gets_from_outcome st0 st :
  gets_from valid_url st0 st →
  maxID_ st = maxID_ st0 ∧ nextNNID_ st0 ≤ nextNNID_ st
  ∧ (nextNNID_ st0 < maxID_ st0 → nextNNID_ st < maxID_ st0)
  ∧ (∀ k rec, data (store st0) !! k = Some rec → data (store st) !! k = Some rec)
  ∧ ((∀ k rec oid, data (store st0) !! k = Some rec →
        rec !! "object_id" = Some oid → oid ∈ NNURIs_ st0) →
     ∀ k rec oid, data (store st) !! k = Some rec →
        rec !! "object_id" = Some oid → oid ∈ NNURIs_ st).
Proof.
  induction 1 as [|st key r st' _ (IHm & IHle & IHlt & IHd & IHu) Hget].
  { split_and!; [done|lia|done..]. }
  apply nn_get_outcome in Hget as (Hm & Hle & Hlt & Hcases).
  split_and!.
  - congruence.
  - lia.
  - intros H0. specialize (IHlt H0). rewrite IHm in Hlt. by apply Hlt.
  - intros k rec Hk. specialize (IHd _ _ Hk).
    destruct Hcases as [[-> _]|(ekey & e & Hnone & -> & _)]; [done|].
    rewrite lookup_insert_ne; [done|]. congruence.
  - intros H0 k rec oid Hk Ho. specialize (IHu H0).
    destruct Hcases as [[Hd ->]|(ekey & e & Hnone & Hd & ->)]; rewrite Hd in Hk.
    + by eapply IHu.
    + destruct (decide (k = ekey)) as [->|Hne].
      * rewrite lookup_insert_eq in Hk. injection Hk as <-.
        rewrite lookup_singleton_eq in Ho. injection Ho as <-. set_solver.
      * rewrite lookup_insert_ne in Hk by done.
        apply elem_of_union_r. by eapply IHu.
Qed.

Lemma init_from_fields m domain domain_code st0 :
  NNURIs.init_from m domain domain_code = Ok st0 →
  data (store st0) = data m ∧ nextNNID_ st0 = 1 ∧ maxID_ st0 = 900000
  ∧ ∃ dc, DomainCodes.init (preamble_domain_codes m) = Ok dc
      ∧ NNURIs.settle_domain_code domain domain_code dc
        = Ok (domain_code_ st0, domain_codes st0).
Proof.
  unfold NNURIs.init_from. intros H.
  destruct (DomainCodes.init _) as [dc|]; [|done]. simpl in H.
  destruct (NNURIs.settle_domain_code _ _ _) as [[code dc']|] eqn:Hs; [|done].
  simpl in H.
  destruct (if decide _ then _ else _) as [pm|]; [|done]. simpl in H.
  destruct (NNURIs.object_ids (data m)) as [s|]; [|done]. simpl in H.
  simplify_eq. simpl. split_and!; [done..|]. by exists dc.
Qed.

(** The serials a [get] moves the counter past are in use, whatever the
    outcome of the [get]. *)
Lemma nn_get_passed key st r st' :
  NNURIs.get valid_url key st = (r, st') →
  ∀ n, nextNNID_ st ≤ n < nextNNID_ st' →
    ∃ x, NNURIs.format_NNURI st (PyInt n) = Ok x ∧ x ∈ NNURIs_ st.
Proof.
  unfold NNURIs.get.
  destruct (NNURIs.getitem valid_url key st) as [v|e0].
  { intros [= <- <-] n Hn. lia. }
  destruct (is_KeyError e0); [|intros [= <- <-] n Hn; lia].
  destruct (NNURIs.nextNNID st) as [r1 st1] eqn:Hn.
  apply nextNNID_bounds in Hn as (Hst1 & _ & _ & Hpassed).
  destruct r1 as [serial|e1]; [|by intros [= <- <-]].
  destruct (NNURIs.format_NNURI st1 (PyStr serial)) as [u|]; [|by intros [= <- <-]].
  unfold NNURIs.setitem, Mapping.setitem. simpl.
  destruct (expand_safe valid_url (curie_converter (store st1)) key) as [ekey|];
    [|by intros [= <- <-]].
  case_decide as Hin; [by intros [= <- <-]|].
  destruct (expand_safe valid_url (curie_converter (store st1)) u) as [e|] eqn:He;
    [|by intros [= <- <-]].
  simpl. rewrite He. by intros [= <- <-].
Qed.

(** Every object identifier of a record is in use, in every state a
    minter built from a store goes through. *)
Lemma gets_from_in_use m domain domain_code st0 st k rec oid :
  NNURIs.init_from m domain domain_code = Ok st0 →
  gets_from valid_url st0 st →
  data (store st) !! k = Some rec → rec !! "object_id" = Some oid →
  oid ∈ NNURIs_ st.
Proof.
  intros Hinit Hreach.
  destruct (gets_from_outcome _ _ Hreach) as (_ & _ & _ & _ & Hused).
  apply Hused. intros k0 rec0 oid0 Hrec Ho.
  destruct (init_from_fields _ _ _ _ Hinit) as (Hd & _).
  rewrite Hd in Hrec. by eapply init_from_snapshot.
Qed.

End Minter_claims.

Lemma expand_safe_of_namespace valid_url pm p ns l e :
  pm !! p = Some ns →
  expand_safe valid_url pm (ns +:+ l) = Ok e → e = ns +:+ l.
Proof.
  intros Hp. unfold expand_safe, validate. rewrite uri_prefix_known_parse.
  rewrite bool_decide_eq_true_2 by (by eapply parse_uri_is_Some).
  destruct (valid_url (ns +:+ l)); simpl; [|done]. by intros [= <-].
Qed.

(** Over prefixes without colon, the lenient [compress] either leaves an
    identifier as it is or gives a form the lenient [expand] takes back
    to it. *)
Lemma compress_fast_expands_back pm u :
  colon_free pm →
  compress_fast pm u = u ∨ expand_fast pm (compress_fast pm u) = u.
Proof.
  intros Hcf. unfold compress_fast.
  destruct (nonempty u) eqn:Hu; [|left; by destruct u].
  unfold lib_compress.
  destruct (parse_uri pm u) as [[p l]|] eqn:Hp; [|by left].
  destruct (nonempty p && nonempty l) eqn:Hne; [|by left].
  destruct (nonempty (format_curie p l)) eqn:Hc; [|by left].
  right. apply parse_uri_Some in Hp as (ns & Hns & ->).
  unfold expand_fast, lib_expand, parse_curie. rewrite Hc.
  rewrite split_colon_format by eauto. simpl. rewrite Hns.
  apply andb_prop in Hne as [_ Hl]. by rewrite nonempty_app_r.
Qed.

(** C2, as the code has it: for a minter built from a store whose NN
    prefix is bound to the NN namespace, in any state reached by [get]
    calls, a [get] that returns does one of two things.

    For a key without record it mints.  The identifier it stores is
    outside the set snapshotted at construction, is no object identifier
    of the original store, and is the one identifier added to the set,
    with one record added.  The identifier it returns, the stored one in
    qualified form, is outside the snapshot as well when the snapshot
    holds expanded identifiers only (the lenient [expand] leaves each as
    it is) and no prefix contains a colon.  The counter is moved to the
    serial of the minted identifier, past the serials found in use and no
    others, so not at all when the serial it stood on was free.

    For a key with a record it returns the stored identifier, which is
    in use, and changes nothing.

    In both cases a second [get] for the key returns the same identifier
    and changes nothing, the counter included; and [nextNNID] called
    again without a commit returns the same serial. *)
Theorem C2_get_or_mint valid_url m domain domain_code st0 st key r st' :
  NNURIs.init_from m domain domain_code = Ok st0 →
  curie_converter (store st0) !! "NN" = Some NN_domain →
  gets_from valid_url st0 st →
  NNURIs.get valid_url key st = (Ok r, st') →
  (∀ ekey, expand valid_url (curie_converter (store st)) safe key = Ok ekey →
     data (store st) !! ekey = None →
     ∃ u, data (store st') !! ekey = Some {[ "object_id" := u ]}
          ∧ r = compress_fast (curie_converter (store st')) u
          ∧ (u ∉ NNURIs_ st0)
          ∧ (colon_free (curie_converter (store st0)) →
             (∀ x, x ∈ NNURIs_ st0 →
                   expand_fast (curie_converter (store st0)) x = x) →
             r ∉ NNURIs_ st0)
          ∧ (∀ k rec, data m !! k = Some rec → rec !! "object_id" ≠ Some u)
          ∧ NNURIs_ st' = {[ u ]} ∪ NNURIs_ st
          ∧ size (data (store st')) = S (size (data (store st)))
          ∧ nextNNID_ st ≤ nextNNID_ st'
          ∧ NNURIs.format_NNURI st (PyInt (nextNNID_ st')) = Ok u
          ∧ (∀ n, nextNNID_ st ≤ n < nextNNID_ st' →
               ∃ x, NNURIs.format_NNURI st (PyInt n) = Ok x ∧ x ∈ NNURIs_ st))
  ∧ (∀ ekey rec oid,
       expand valid_url (curie_converter (store st)) safe key = Ok ekey →
       data (store st) !! ekey = Some rec → rec !! "object_id" = Some oid →
       r = compress_fast (curie_converter (store st)) oid
       ∧ oid ∈ NNURIs_ st ∧ st' = st)
  ∧ NNURIs.get valid_url key st' = (Ok r, st')
  ∧ (∀ s st1, NNURIs.nextNNID st = (Ok s, st1) → NNURIs.nextNNID st1 = (Ok s, st1)).
Proof.
  intros Hinit HNN Hreach Hget.
  pose proof (λ k rec oid, gets_from_in_use _ _ _ _ _ _ k rec oid Hinit Hreach) as Hused.
  pose proof (nn_get_passed _ _ _ _ _ Hget) as Hpassed.
  apply gets_from_frame in Hreach as (Hpm & Hcode & Hsub).
  apply nn_get_Ok in Hget as Hcases. split_and!.
  - intros ekey Hk Hnone.
    destruct Hcases as [[Hg _]|(ekey' & n & u & e & Hk' & Hd & Hle & Hu & Hin & He & -> & ->)].
    { apply nn_getitem_Ok in Hg as (ek & rec & oid & Hek & Hrec & _).
      rewrite Hk in Hek. simplify_eq. }
    rewrite Hk in Hk'. simplify_eq.
    assert (e = u) as ->.
    { unfold NNURIs.format_NNURI in Hu. destruct (domain_code_ st); [|done].
      simpl in Hu. simplify_eq. rewrite Hpm in He.
      by apply (expand_safe_of_namespace _ _ _ _ _ _ HNN) in He. }
    assert (u ∉ NNURIs_ st0) as Hnew by set_solver.
    exists u. simpl. rewrite lookup_insert_eq. split_and!; try done.
    + intros Hcf Hexp Hr. rewrite Hpm in Hr.
      destruct (compress_fast_expands_back _ u Hcf) as [Heq|Heq].
      * apply Hnew. by rewrite <- Heq.
      * apply Hnew. rewrite <- Heq. by rewrite (Hexp _ Hr).
    + intros k rec Hrec Hoid. apply Hnew. by eapply init_from_snapshot.
    + by rewrite map_size_insert_None.
  - intros ekey rec oid Hk Hrec Hoid.
    destruct Hcases as [[Hg ->]|(ekey' & n & u & e & Hk' & Hd & _)].
    + apply nn_getitem_Ok in Hg as (ek & rec' & oid' & Hek & Hrec' & Hoid' & ->).
      rewrite Hk in Hek. simplify_eq. split_and!; [done| |done]. by eapply Hused.
    + rewrite Hk in Hk'. simplify_eq.
  - destruct Hcases as [[Hg ->]|(ekey & n & u & e & Hk & Hd & _ & Hu & Hin & He & -> & ->)].
    { unfold NNURIs.get. by rewrite Hg. }
    unfold NNURIs.get, NNURIs.getitem, Mapping.getitem. simpl.
    simpl in Hk. rewrite Hk. simpl. rewrite lookup_insert_eq. simpl.
    by rewrite lookup_singleton_eq.
  - intros s st1. apply nextNNID_again.
Qed.

Lemma C2_witness :
  let u := "https://ontology.novonordisk.com/07000002" in
  ∃ st',
    NNURIs.init_from demo_mapped_store (Some "finance") (Some (PyInt 7))
      = Ok demo_mapped_minter
    ∧ NNURIs.get (λ _, true) "ex:2" demo_mapped_minter = (Ok "NN:07000002", st')
    ∧ NNURIs.get (λ _, true) "ex:2" st' = (Ok "NN:07000002", st')
    ∧ data (store st') !! "http://example.org/2" = Some {[ "object_id" := u ]}
    ∧ (u ∉ NNURIs_ demo_mapped_minter)
    ∧ ("NN:07000002" ∉ NNURIs_ demo_mapped_minter)
    ∧ NNURIs_ st' = {[ u ]} ∪ NNURIs_ demo_mapped_minter
    ∧ nextNNID_ demo_mapped_minter ≤ nextNNID_ st'
    ∧ NNURIs.format_NNURI demo_mapped_minter (PyInt (nextNNID_ st')) = Ok u.
Proof.
  intros u. exists (NNURIs.get (λ _, true) "ex:2" demo_mapped_minter).2.
  set (st' := (NNURIs.get (λ _, true) "ex:2" demo_mapped_minter).2).
  assert (NNURIs.init_from demo_mapped_store (Some "finance") (Some (PyInt 7))
          = Ok demo_mapped_minter) as Hinit by (vm_compute; reflexivity).
  assert (NNURIs.get (λ _, true) "ex:2" demo_mapped_minter = (Ok "NN:07000002", st'))
    as Hget by (vm_compute; reflexivity).
  split; [exact Hinit|]. split; [exact Hget|].
  destruct (C2_get_or_mint (λ _, true) demo_mapped_store (Some "finance")
              (Some (PyInt 7)) demo_mapped_minter demo_mapped_minter "ex:2"
              "NN:07000002" st' Hinit) as (H1 & _ & H2 & _).
  - vm_compute; reflexivity.
  - apply gets_none.
  - exact Hget.
  - split; [exact H2|].
    destruct (H1 "http://example.org/2")
      as (u' & Hu & _ & Hnew & Hret & _ & Hset & _ & Hle & Hfmt & _).
    + vm_compute; reflexivity.
    + vm_compute; reflexivity.
    + assert (u' = u) as ->.
      { replace (data (store st') !! "http://example.org/2")
          with (Some ({[ "object_id" := u ]} : record))
          in Hu by (vm_compute; reflexivity).
        apply (inj Some) in Hu.
        apply (f_equal (λ r : record, r !! "object_id")) in Hu.
        rewrite !lookup_singleton_eq in Hu. by injection Hu. }
      split_and!; [exact Hu|exact Hnew| |exact Hset|exact Hle|exact Hfmt].
      apply Hret.
      * intros p ns Hp. simpl in Hp.
        apply lookup_insert_Some in Hp as [[<- _]|[_ Hp]]; [reflexivity|].
        unfold demo_prefixes in Hp.
        apply lookup_singleton_Some in Hp as [<- _]. reflexivity.
      * intros x Hx. simpl in Hx. apply elem_of_singleton in Hx as ->.
        vm_compute. reflexivity.
Defined.

(** C2 as stated fails in three ways.

    A key that is already mapped: [get] returns the stored identifier,
    and the stored identifiers are the snapshot.  The store maps [ex:1]
    to [NN:07000001]; the minter built from it holds the expanded form in
    its set and returns the qualified form.

    The counter: on a minter whose first serial is free, the two calls
    for the unseen key [ex:1] mint [NN:07000001] and leave the counter on
    1; it moves only past serials found in use.

    A snapshot that holds an identifier as it was written: loaded without
    checks over a table that does not bind [NN] yet, the object
    identifier [NN:07000001] of [ex:9] stays as written, [__init__] binds
    [NN] afterwards, and the loop of [nextNNID] looks for the expanded
    form only.  [get] for the unseen key [ex:1] then returns
    [NN:07000001], which is in the snapshot and is the identifier of
    [ex:9]. *)
Lemma C2_counterexample :
  (NNURIs.init_from demo_mapped_store (Some "finance") (Some (PyInt 7))
     = Ok demo_mapped_minter
   ∧ (∀ valid_url,
        NNURIs.get valid_url "ex:1" demo_mapped_minter
          = (Ok "NN:07000001", demo_mapped_minter))
   ∧ expand_fast (curie_converter (store demo_mapped_minter)) "NN:07000001"
       ∈ NNURIs_ demo_mapped_minter)
  ∧ (∃ st1,
       NNURIs.init_from demo_store (Some "finance") (Some (PyInt 7)) = Ok demo_minter
       ∧ NNURIs.get http_url "ex:1" demo_minter = (Ok "NN:07000001", st1)
       ∧ NNURIs.get http_url "ex:1" st1 = (Ok "NN:07000001", st1)
       ∧ nextNNID_ demo_minter = 1 ∧ nextNNID_ st1 = 1)
  ∧ (∃ st0 st1,
       NNURIs.init http_url (Some "finance") (Some (PyInt 7)) (Some demo_prefixes)
         [("ex:9", ItemStr "NN:07000001")] None default_defaults false = Ok st0
       ∧ "NN:07000001" ∈ NNURIs_ st0
       ∧ NNURIs.getitem http_url "ex:1" st0 = Raise (KeyError "http://example.org/1")
       ∧ NNURIs.get http_url "ex:1" st0 = (Ok "NN:07000001", st1)
       ∧ NNURIs.getitem http_url "ex:9" st1 = Ok "NN:07000001").
Proof.
  split_and!.
  - vm_compute; reflexivity.
  - intros valid_url. reflexivity.
  - vm_compute. set_solver.
  - eexists. split_and!; vm_compute; reflexivity.
  - eexists _, _. split_and!; [vm_compute; reflexivity| |vm_compute; reflexivity..].
    vm_compute. reflexivity.
Qed.

(** ** Minting in sorted order *)

Section Mint_order.
Variable valid_url : string → bool.

Lemma filter_public_Ok pm l r :
  Rewriter.filter_public valid_url pm l = Ok r →
  r = filter (λ x, is_public valid_url pm x = true) l
  ∧ ∀ x, x ∈ l → ∃ p, parse valid_url pm x = Ok p.
Proof.
  revert r. induction l as [|x l IH]; intros r; simpl.
  - intros [= <-]. split; [done|]. by intros ? ?%elem_of_nil.
  - destruct (parse valid_url pm x) as [p|] eqn:Hp; [|done]. simpl.
    destruct (Rewriter.filter_public valid_url pm l) as [rest|]; [|done]. simpl.
    destruct (IH rest eq_refl) as [-> Hall].
    intros Hr. split.
    + assert (is_public valid_url pm x = bool_decide (fst <$> p ≠ Some "NN")) as Hx
        by (unfold is_public; by rewrite Hp).
      case_decide as Hd.
      * rewrite filter_cons_True; [congruence|].
        simpl. rewrite Hx. apply bool_decide_eq_true_2. exact Hd.
      * rewrite filter_cons_False; [congruence|].
        simpl. rewrite Hx. rewrite bool_decide_eq_false_2 by (intros H; exact (H Hd)). done.
    + intros y [->|Hy]%elem_of_cons; eauto.
Qed.

Lemma filter_public_total pm l :
  (∀ x, x ∈ l → ∃ p, parse valid_url pm x = Ok p) →
  ∃ r, Rewriter.filter_public valid_url pm l = Ok r.
Proof.
  induction l as [|x l IH]; intros Hall; simpl; [eauto|].
  destruct (Hall x) as [p ->]; [by left|]. simpl.
  destruct IH as [r ->]; [intros; apply Hall; by right|]. simpl.
  case_decide; eauto.
Qed.

(** The filter does not depend on the order of the candidates, up to
    which exception comes first. *)
Lemma filter_public_perm pm l l' :
  l ≡ₚ l' →
  match Rewriter.filter_public valid_url pm l,
        Rewriter.filter_public valid_url pm l' with
  | Ok r, Ok r' => r ≡ₚ r'
  | Raise _, Raise _ => True
  | _, _ => False
  end.
Proof.
  intros Hperm.
  destruct (Rewriter.filter_public valid_url pm l) as [r|e] eqn:Hl.
  - apply filter_public_Ok in Hl as [-> Hall].
    destruct (filter_public_total pm l') as [r' Hr'].
    { intros x Hx. apply Hall. by rewrite Hperm. }
    rewrite Hr'. apply filter_public_Ok in Hr' as [-> _]. by rewrite Hperm.
  - destruct (Rewriter.filter_public valid_url pm l') as [r'|e'] eqn:Hl'; [|done].
    apply filter_public_Ok in Hl' as [_ Hall].
    destruct (filter_public_total pm l) as [r Hr]; [|congruence].
    intros x Hx. apply Hall. by rewrite <- Hperm.
Qed.

Lemma sorted_perm l l' : l ≡ₚ l' → Mapping.sorted l = Mapping.sorted l'.
Proof.
  intros Hperm. unfold Mapping.sorted.
  apply (Sorted_unique String.le).
  - apply Sorted_merge_sort, _.
  - apply Sorted_merge_sort, _.
  - by rewrite !merge_sort_Permutation.
Qed.

Lemma mint_all_keys l st mapping st' :
  Rewriter.mint_all valid_url l st = (Ok mapping, st') → mapping.*1 = l.
Proof.
  revert st mapping. induction l as [|x l IH]; intros st mapping; simpl.
  - by intros [= <- <-].
  - destruct (NNURIs.get_uri valid_url x st) as [[n|] st1]; [|done].
    destruct (Rewriter.mint_all valid_url l st1) as [[rest|] st2] eqn:Hrest; [|done].
    intros [= <- <-]. simpl. f_equal. by eapply IH.
Qed.

Lemma assigned_key (mapping : assignment) x :
  x ∈ mapping.*1 → is_Some (assigned mapping x).
Proof.
  induction mapping as [|[k v] mapping IH]; simpl.
  - by intros ?%elem_of_nil.
  - intros [->|Hx]%elem_of_cons; case_decide; eauto; done.
Qed.

Lemma assigned_Some (mapping : assignment) x n :
  assigned mapping x = Some n → (x, n) ∈ mapping.
Proof.
  induction mapping as [|[k v] mapping IH]; simpl; [done|].
  case_decide as Hk.
  - intros [= <-]. subst. by left.
  - intros ?%IH. by right.
Qed.

Lemma assigned_None (mapping : assignment) x :
  assigned mapping x = None → x ∉ mapping.*1.
Proof.
  induction mapping as [|[k v] mapping IH]; simpl.
  - intros _ ?%elem_of_nil. done.
  - case_decide as Hk; [done|]. intros ?%IH [?|?]%elem_of_cons; done.
Qed.

End Mint_order.

(** C3: the assignment is computed from the sorted list of the candidates
    outside the NN namespace, so two orders of the same candidates give
    the same assignment and the same minter state; every such candidate
    has its identifier in the assignment; and the pass over the graph
    receives this finished assignment. *)
Theorem C3_mint_before_rewrite valid_url st l l' :
  l ≡ₚ l' →
  (∀ mapping st1,
     Rewriter.mint_phase valid_url l st = (Ok mapping, st1) →
     Rewriter.mint_phase valid_url l' st = (Ok mapping, st1)
     ∧ mapping.*1
       = Mapping.sorted
           (filter (λ x, is_public valid_url (curie_converter (store st)) x = true) l)
     ∧ Sorted String.le mapping.*1
     ∧ (∀ x, x ∈ l → is_public valid_url (curie_converter (store st)) x = true →
             is_Some (assigned mapping x))
     ∧ ∀ g, Rewriter.replace_URIs valid_url l g st
            = (Rewriter.rewrite valid_url (curie_converter (store st1)) mapping g, st1)
            ∧ Rewriter.replace_URIs valid_url l' g st
              = Rewriter.replace_URIs valid_url l g st)
  ∧ (∀ e st1,
       Rewriter.mint_phase valid_url l st = (Raise e, st1) →
       ∃ e', Rewriter.mint_phase valid_url l' st = (Raise e', st1)).
Proof.
  intros Hperm.
  pose proof (filter_public_perm valid_url (curie_converter (store st)) l l' Hperm) as Hf.
  unfold Rewriter.replace_URIs, Rewriter.mint_phase.
  destruct (Rewriter.filter_public valid_url _ l) as [r|e0] eqn:Hl,
           (Rewriter.filter_public valid_url _ l') as [r'|e0'] eqn:Hl'; try done.
  - rewrite <- (sorted_perm r r' Hf). split.
    + intros mapping st1 Hm. rewrite Hm. split; [done|].
      pose proof (mint_all_keys _ _ _ _ _ Hm) as Hkeys.
      apply filter_public_Ok in Hl as [-> _].
      split; [done|]. split; [rewrite Hkeys; apply Sorted_merge_sort, _|].
      split; [|done].
      intros x Hx Hpub. apply assigned_key. rewrite Hkeys.
      unfold Mapping.sorted. rewrite merge_sort_Permutation.
      by apply list_elem_of_filter.
    + intros e st1 ->. eauto.
  - split; [done|]. intros e st1 [= <- <-]. eauto.
Qed.

Lemma C3_witness :
  let l := ["http://example.org/b"; "http://example.org/a"] in
  let l' := ["http://example.org/a"; "http://example.org/b"] in
  let mapping := [("http://example.org/a", "https://ontology.novonordisk.com/07000001");
                  ("http://example.org/b", "https://ontology.novonordisk.com/07000002")] in
  (Rewriter.mint_phase (λ _, true) l demo_minter).1 = Ok mapping
  ∧ (Rewriter.mint_phase (λ _, true) l' demo_minter).1 = Ok mapping.
Proof.
  intros l l' mapping.
  assert (Rewriter.mint_phase (λ _, true) l demo_minter
          = (Ok mapping, (Rewriter.mint_phase (λ _, true) l demo_minter).2)) as Hm
    by (vm_compute; reflexivity).
  split; [by rewrite Hm|].
  assert (l ≡ₚ l') as Hperm by apply Permutation_swap.
  destruct (C3_mint_before_rewrite (λ _, true) demo_minter l l' Hperm) as [H _].
  destruct (H _ _ Hm) as [-> _]. done.
Defined.

(** ** The pass over the graph *)

Lemma elem_of_g_add (a : triple) (g : graph) (t : triple) : t ∈ g_add a g ↔ t = a ∨ t ∈ g.
Proof. unfold g_add. set_solver. Qed.

Lemma elem_of_g_remove (r : triple) (g : graph) (t : triple) : t ∈ g_remove r g ↔ t ∈ g ∧ t ≠ r.
Proof. unfold g_remove. set_solver. Qed.

Lemma elem_of_predicate_objects (g : graph) (s p o : term) :
  (p, o) ∈ predicate_objects g s ↔ (s, p, o) ∈ g.
Proof.
  unfold predicate_objects. rewrite list_elem_of_fmap. split.
  - intros ([[s' p'] o'] & [= -> ->] & Ht).
    apply elem_of_elements, elem_of_filter in Ht as [Hs Ht]. by simpl in Hs; subst.
  - intros Ht. exists (s, p, o). split; [done|].
    by apply elem_of_elements, elem_of_filter.
Qed.

Lemma elem_of_subject_predicates (g : graph) (o s p : term) :
  (s, p) ∈ subject_predicates g o ↔ (s, p, o) ∈ g.
Proof.
  unfold subject_predicates. rewrite list_elem_of_fmap. split.
  - intros ([[s' p'] o'] & [= -> ->] & Ht).
    apply elem_of_elements, elem_of_filter in Ht as [Ho Ht]. by simpl in Ho; subst.
  - intros Ht. exists (s, p, o). split; [done|].
    by apply elem_of_elements, elem_of_filter.
Qed.

Section Rewrite_facts.
Variable valid_url : string → bool.
Variable pm : prefix_map.
Variable mapping : assignment.
Variable label_objects : gset term.
Variable g0 : graph.

(** No assigned identifier is itself a candidate or a label node, and
    no renamed label node is a candidate. *)
Hypothesis assigned_not_candidate :
  ∀ c n, (c, n) ∈ mapping → n ∉ mapping.*1.
Hypothesis assigned_not_label :
  ∀ c n, (c, n) ∈ mapping → URIRef n ∉ label_objects.
Hypothesis renamed_not_candidate :
  ∀ c n o, (c, n) ∈ mapping → o ∈ label_objects →
           replace (str o) c n ∉ mapping.*1.

Local Abbreviation candidate := (is_candidate mapping).
Local Abbreviation clean := (clean mapping).
Local Abbreviation is_prov := (is_provenance valid_url pm mapping).
Local Abbreviation fresh := (fresh valid_url pm mapping g0).
Local Abbreviation kept := (kept mapping label_objects).
Local Abbreviation edited := (edited valid_url pm mapping label_objects g0).
Local Abbreviation sound := (provenance_sound valid_url pm mapping g0).
Local Abbreviation inherited := (inherited g0).

Lemma candidate_key c n : (c, n) ∈ mapping → candidate (URIRef c).
Proof.
  intros Hin. exists c. split; [done|].
  apply list_elem_of_fmap. by exists (c, n).
Qed.

Lemma mapping_get_not_candidate o : ¬ candidate (mapping_get mapping o).
Proof.
  destruct o as [s|s|l]; simpl; [|by intros (c & ? & _)..].
  destruct (assigned mapping s) as [n|] eqn:Hs.
  - apply assigned_Some in Hs. intros (c & [= ->] & Hc).
    by eapply assigned_not_candidate.
  - apply assigned_None in Hs. by intros (c & [= ->] & Hc).
Qed.

Lemma nnuri_not_candidate c n : (c, n) ∈ mapping → ¬ candidate (URIRef n).
Proof. intros Hin (c' & [= <-] & Hc). by eapply assigned_not_candidate. Qed.

Lemma rewrite_object_not_candidate puri nnuri o :
  (puri, nnuri) ∈ mapping →
  ¬ candidate (rewrite_object mapping label_objects puri nnuri o).
Proof.
  intros Hin. unfold rewrite_object. destruct (is_Literal o) eqn:Hl.
  - destruct o; try done. by intros (c & ? & _).
  - case_decide.
    + intros (c & [= <-] & Hc). by eapply renamed_not_candidate.
    + apply mapping_get_not_candidate.
Qed.

Lemma provenance_clean q c n : (c, n) ∈ mapping → clean (provenance q n).
Proof.
  intros Hin. split; simpl; [by eapply nnuri_not_candidate|].
  by intros (c' & ? & _).
Qed.

Lemma is_prov_kept t : is_prov t → kept t.
Proof.
  intros (c & n & q & Hin & _ & ->). split; [by eapply provenance_clean|].
  simpl. by eapply assigned_not_label.
Qed.

(** A triple that a step removes is under the provenance predicate
    only if the input had such triples. *)
Lemma sound_removed g t :
  sound g → t ∈ g → ¬ kept t → predicate t = sourced_from → inherited.
Proof.
  intros Hg Ht Hk Hp. destruct (Hg t Ht Hp) as [Hprov|?]; [|done].
  by apply is_prov_kept in Hprov.
Qed.

Lemma fresh_other t :
  clean t → (predicate t = sourced_from → inherited) → fresh t.
Proof. intros Hc Hp. split; [done|]. intros ?%Hp. by right. Qed.

(** *** Edits *)

Lemma edited_id g : edited (λ _, False) g g.
Proof. split; [intros t Ht; left; tauto|done]. Qed.

Lemma edited_weaken (R R' : triple → Prop) g g' :
  (∀ t, R' t → R t) → edited R g g' → edited R' g g'.
Proof.
  intros HR [H1 H2]. split; [|done].
  intros t [[? ?]|?]%H1; [left|right]; auto.
Qed.

Lemma edited_trans (R1 R2 : triple → Prop) g g1 g2 :
  edited R1 g g1 → edited R2 g1 g2 → edited (λ t, R1 t ∨ R2 t) g g2.
Proof.
  intros [H1 K1] [H2 K2]. split.
  - intros t [[[[? ?]|?]%H1 ?]|?]%H2; [left|right..]; tauto.
  - auto.
Qed.

Lemma edited_step g a r :
  fresh a → ¬ kept r → edited (λ t, t = r) g (g_add a (g_remove r g)).
Proof.
  intros Ha Hr. split.
  - intros t [->|[? ?]%elem_of_g_remove]%elem_of_g_add; [by right|by left].
  - intros t Ht Hk. apply elem_of_g_add. right. apply elem_of_g_remove.
    split; [done|]. by intros ->.
Qed.

Lemma edited_add g a : fresh a → edited (λ _, False) g (g_add a g).
Proof.
  intros Ha. split.
  - intros t [->|?]%elem_of_g_add; [by right|left; tauto].
  - intros t Ht _. apply elem_of_g_add. by right.
Qed.

Lemma edited_sound (R : triple → Prop) g g' :
  edited R g g' → sound g → sound g'.
Proof. intros [H1 _] Hg t [[Ht _]|[_ Hf]]%H1 Hp; auto. Qed.

(** What an [edited] graph still holds of a candidate's triples. *)
Lemma edited_no_subject (R : triple → Prop) g g' c :
  candidate c → edited R g g' →
  (∀ t, t ∈ g → subject t = c → R t) →
  ∀ t, t ∈ g' → subject t ≠ c.
Proof.
  intros Hc [H1 _] HR t [[Ht HnR]|[[Hs _] _]]%H1 Heq.
  - by apply HnR, HR.
  - by rewrite Heq in Hs.
Qed.

Lemma edited_no_object (R : triple → Prop) g g' c :
  candidate c → edited R g g' →
  (∀ t, t ∈ g → object t = c → R t) →
  ∀ t, t ∈ g' → object t ≠ c.
Proof.
  intros Hc [H1 _] HR t [[Ht HnR]|[[_ Ho] _]]%H1 Heq.
  - by apply HnR, HR.
  - by rewrite Heq in Ho.
Qed.

(** An edit that removes nothing but unkept triples adds no triple on a
    candidate. *)
Lemma edited_preserves_absent g g' c :
  candidate c → edited (λ _, False) g g' →
  (∀ t, t ∈ g → subject t ≠ c ∧ object t ≠ c) →
  ∀ t, t ∈ g' → subject t ≠ c ∧ object t ≠ c.
Proof.
  intros Hc [H1 _] Hg t [[Ht _]|[[Hs Ho] _]]%H1; [auto|].
  split; intros Heq; [by rewrite Heq in Hs|by rewrite Heq in Ho].
Qed.

(** *** The loops *)

Lemma rewrite_label_fold o onn l st :
  o ∈ label_objects → ¬ candidate onn →
  Forall (λ po : term * term, po.1 = sourced_from → inherited) l →
  let st' := foldl (λ st' '(p1, o1),
               {| g_ := g_add (onn, p1, mapping_get mapping o1)
                          (g_remove (o, p1, o1) (g_ st'));
                  replaced_triples := replaced_triples st' + 1;
                  added_triples := added_triples st' |}) st l in
  edited (λ _, False) (g_ st) (g_ st') ∧ added_triples st' = added_triples st.
Proof.
  intros Ho Honn. revert st. induction l as [|[p1 o1] l IH]; intros st Hl; simpl.
  - split; [apply edited_id|done].
  - apply Forall_cons in Hl as [Hp1 Hl].
    destruct (IH {| g_ := g_add (onn, p1, mapping_get mapping o1)
                            (g_remove (o, p1, o1) (g_ st));
                    replaced_triples := replaced_triples st + 1;
                    added_triples := added_triples st |} Hl) as [He Ha].
    split; [|done]. simpl in He.
    eapply edited_weaken; [|eapply edited_trans; [|exact He]].
    2:{ apply (edited_step (g_ st) (onn, p1, mapping_get mapping o1) (o, p1, o1)).
        - apply fresh_other; [|done].
          split; [done|apply mapping_get_not_candidate].
        - by intros [_ Hs]. }
    simpl. tauto.
Qed.

Lemma rewrite_label_edited o onn st :
  o ∈ label_objects → ¬ candidate onn → sound (g_ st) →
  edited (λ _, False) (g_ st) (g_ (rewrite_label mapping o onn st))
  ∧ added_triples (rewrite_label mapping o onn st) = added_triples st.
Proof.
  intros Ho Honn Hs. apply rewrite_label_fold; [done..|].
  apply Forall_forall. intros [p1 o1] Hin%elem_of_predicate_objects.
  apply (sound_removed _ _ Hs Hin). by intros [_ ?].
Qed.

Lemma rewrite_outgoing_step_edited puri nnuri st p o :
  (puri, nnuri) ∈ mapping → sound (g_ st) →
  (p = sourced_from → inherited) →
  let st' := rewrite_outgoing_step mapping label_objects puri nnuri st (p, o) in
  edited (λ t, t = (URIRef puri, p, o)) (g_ st) (g_ st')
  ∧ added_triples st' = added_triples st.
Proof.
  intros Hin Hs Hp. unfold rewrite_outgoing_step.
  set (onn := rewrite_object mapping label_objects puri nnuri o).
  assert (¬ candidate onn) as Honn by by apply rewrite_object_not_candidate.
  assert (edited (λ t, t = (URIRef puri, p, o)) (g_ st)
            (g_add (URIRef nnuri, p, onn) (g_remove (URIRef puri, p, o) (g_ st))))
    as Hstep.
  { apply edited_step.
    - apply fresh_other; [|done]. split; [by eapply nnuri_not_candidate|done].
    - intros [[Hc _] _]. apply Hc. by eapply candidate_key. }
  case_decide as Hl; [|done].
  edestruct (rewrite_label_edited o onn) as [He Ha]; [done|done| |].
  2:{ split; [|by rewrite Ha].
      eapply edited_weaken; [|eapply edited_trans; [exact Hstep|exact He]].
      simpl. tauto. }
  simpl. by eapply edited_sound.
Qed.

Lemma rewrite_outgoing_fold puri nnuri l st :
  (puri, nnuri) ∈ mapping → sound (g_ st) →
  Forall (λ po : term * term, po.1 = sourced_from → inherited) l →
  let st' := foldl (rewrite_outgoing_step mapping label_objects puri nnuri) st l in
  edited (λ t, ∃ po, po ∈ l ∧ t = (URIRef puri, po.1, po.2)) (g_ st) (g_ st')
  ∧ added_triples st' = added_triples st.
Proof.
  intros Hin. revert st.
  induction l as [|[p o] l IH]; intros st Hs Hl; cbn [foldl].
  - split; [|done]. eapply edited_weaken; [|apply edited_id].
    by intros t (po & ?%elem_of_nil & _).
  - apply Forall_cons in Hl as [Hp Hl].
    destruct (rewrite_outgoing_step_edited puri nnuri st p o Hin Hs Hp) as [H1 A1].
    destruct (IH (rewrite_outgoing_step mapping label_objects puri nnuri st (p, o)))
      as [H2 A2]; [by eapply edited_sound|done|].
    cbv zeta in *. split; [|congruence].
    eapply edited_weaken; [|eapply edited_trans; [exact H1|exact H2]].
    intros t (po & [->|Hpo]%elem_of_cons & ->); [by left|right; eauto].
Qed.

Lemma rewrite_outgoing_edited puri nnuri st :
  (puri, nnuri) ∈ mapping → sound (g_ st) →
  let st' := rewrite_outgoing mapping label_objects puri nnuri st in
  edited (λ _, False) (g_ st) (g_ st')
  ∧ (∀ t, t ∈ g_ st' → subject t ≠ URIRef puri)
  ∧ added_triples st' = added_triples st.
Proof.
  intros Hin Hs. unfold rewrite_outgoing.
  destruct (rewrite_outgoing_fold puri nnuri
              (predicate_objects (g_ st) (URIRef puri)) st Hin Hs) as [He Ha].
  { apply Forall_forall. intros [p o] Hpo%elem_of_predicate_objects.
    apply (sound_removed _ _ Hs Hpo). intros [[Hc _] _]. apply Hc.
    by eapply candidate_key. }
  split_and!; [|eapply edited_no_subject; [by eapply candidate_key|exact He|]|done].
  - eapply edited_weaken; [|exact He]. done.
  - intros [[s p] o] Ht Hsub. unfold subject in Hsub. simpl in Hsub. subst s.
    exists (p, o). split; [|done]. by apply elem_of_predicate_objects.
Qed.

Lemma rewrite_incoming_fold puri nnuri l st :
  (puri, nnuri) ∈ mapping →
  Forall (λ sp : term * term, sp.2 = sourced_from → inherited) l →
  let st' := foldl (λ st' '(s, p),
               {| g_ := g_add (mapping_get mapping s, p, URIRef nnuri)
                          (g_remove (s, p, URIRef puri) (g_ st'));
                  replaced_triples := replaced_triples st' + 1;
                  added_triples := added_triples st' |}) st l in
  edited (λ t, ∃ sp, sp ∈ l ∧ t = (sp.1, sp.2, URIRef puri)) (g_ st) (g_ st')
  ∧ added_triples st' = added_triples st.
Proof.
  intros Hin. revert st. induction l as [|[s p] l IH]; intros st Hl; simpl.
  - split; [|done]. eapply edited_weaken; [|apply edited_id].
    by intros t (po & ?%elem_of_nil & _).
  - apply Forall_cons in Hl as [Hp Hl].
    destruct (IH {| g_ := g_add (mapping_get mapping s, p, URIRef nnuri)
                            (g_remove (s, p, URIRef puri) (g_ st));
                    replaced_triples := replaced_triples st + 1;
                    added_triples := added_triples st |} Hl) as [H2 A2].
    split; [|done]. simpl in H2.
    eapply edited_weaken; [|eapply edited_trans; [|exact H2]].
    2:{ apply (edited_step (g_ st) (mapping_get mapping s, p, URIRef nnuri)
                 (s, p, URIRef puri)).
        - apply fresh_other; [|done].
          split; [apply mapping_get_not_candidate|by eapply nnuri_not_candidate].
        - intros [[_ Ho] _]. apply Ho. by eapply candidate_key. }
    intros t (sp & [->|Hsp]%elem_of_cons & ->); [by left|right; eauto].
Qed.

Lemma rewrite_incoming_edited puri nnuri st :
  (puri, nnuri) ∈ mapping → sound (g_ st) →
  let st' := rewrite_incoming mapping puri nnuri st in
  edited (λ _, False) (g_ st) (g_ st')
  ∧ (∀ t, t ∈ g_ st' → object t ≠ URIRef puri)
  ∧ added_triples st' = added_triples st.
Proof.
  intros Hin Hs. unfold rewrite_incoming.
  destruct (rewrite_incoming_fold puri nnuri
              (subject_predicates (g_ st) (URIRef puri)) st Hin) as [He Ha].
  { apply Forall_forall. intros [s p] Hsp%elem_of_subject_predicates.
    apply (sound_removed _ _ Hs Hsp). intros [[_ Hc] _]. apply Hc.
    by eapply candidate_key. }
  split_and!; [|eapply edited_no_object; [by eapply candidate_key|exact He|]|done].
  - eapply edited_weaken; [|exact He]. done.
  - intros [[s p] o] Ht Ho. unfold object in Ho. simpl in Ho. subst o.
    exists (s, p). split; [|done]. by apply elem_of_subject_predicates.
Qed.

Lemma rewrite_candidate_edited puri nnuri q st :
  (puri, nnuri) ∈ mapping → sound (g_ st) →
  compress valid_url pm safe puri = Ok q →
  ∃ st', Rewriter.rewrite_candidate valid_url pm mapping label_objects
           puri nnuri st = Ok st'
    ∧ edited (λ _, False) (g_ st) (g_ st')
    ∧ (∀ t, t ∈ g_ st' → subject t ≠ URIRef puri ∧ object t ≠ URIRef puri)
    ∧ provenance q nnuri ∈ g_ st'
    ∧ added_triples st' = added_triples st + 1.
Proof.
  intros Hin Hs Hq. unfold Rewriter.rewrite_candidate. rewrite Hq. simpl.
  eexists. split; [done|].
  destruct (rewrite_outgoing_edited puri nnuri st Hin Hs) as (E1 & S1 & A1).
  destruct (rewrite_incoming_edited puri nnuri
              (rewrite_outgoing mapping label_objects puri nnuri st) Hin)
    as (E2 & O2 & A2); [by eapply edited_sound|].
  pose proof (candidate_key _ _ Hin) as Hc.
  pose proof (provenance_clean q _ _ Hin) as Hp.
  assert (fresh (provenance q nnuri)) as Hf.
  { split; [done|]. intros _. left. by exists puri, nnuri, q. }
  assert (edited (λ _, False) (g_ st)
            (g_ (rewrite_incoming mapping puri nnuri
                   (rewrite_outgoing mapping label_objects puri nnuri st)))) as E12.
  { eapply edited_weaken; [|eapply edited_trans; [exact E1|exact E2]]. tauto. }
  simpl. split_and!.
  - eapply edited_weaken; [|eapply edited_trans; [exact E12|by apply edited_add]].
    tauto.
  - intros t [->|Ht]%elem_of_g_add.
    + split; intros Heq; [apply (proj1 Hp)|apply (proj2 Hp)];
        unfold provenance; by rewrite Heq.
    + split; [|by apply O2].
      destruct E2 as [H2 _]. apply H2 in Ht as [[Ht _]|[[Hsub _] _]]; [by apply S1|].
      intros Heq. by rewrite Heq in Hsub.
  - apply elem_of_g_add. by left.
  - lia.
Qed.

Lemma rewrite_loop_edited todo st :
  sound (g_ st) →
  (∀ c n, (c, n) ∈ todo →
     (c, n) ∈ mapping ∧ ∃ q, compress valid_url pm safe c = Ok q) →
  ∃ st', Rewriter.rewrite_loop valid_url pm mapping label_objects todo st = Ok st'
    ∧ edited (λ _, False) (g_ st) (g_ st')
    ∧ (∀ c n t, (c, n) ∈ todo → t ∈ g_ st' →
         subject t ≠ URIRef c ∧ object t ≠ URIRef c)
    ∧ (∀ c n, (c, n) ∈ todo →
         ∃ q, compress valid_url pm safe c = Ok q ∧ provenance q n ∈ g_ st')
    ∧ added_triples st' = added_triples st + Z.of_nat (length todo).
Proof.
  revert st. induction todo as [|[puri nnuri] todo IH]; intros st Hs Htodo; simpl.
  - exists st. split_and!; [done|apply edited_id| | |lia].
    + by intros c n t ?%elem_of_nil.
    + by intros c n ?%elem_of_nil.
  - destruct (Htodo puri nnuri) as [Hin [q Hq]]; [by left|].
    destruct (rewrite_candidate_edited puri nnuri q st Hin Hs Hq)
      as (st1 & -> & E1 & N1 & P1 & A1).
    simpl.
    destruct (IH st1) as (st' & -> & E2 & N2 & P2 & A2).
    { by eapply edited_sound. }
    { intros c n Hcn. apply Htodo. by right. }
    exists st'. split_and!; [done| | | |lia].
    + eapply edited_weaken; [|eapply edited_trans; [exact E1|exact E2]]. tauto.
    + intros c n t [[= -> ->]|Hcn]%elem_of_cons Ht; [|by eapply N2].
      eapply edited_preserves_absent; [by eapply candidate_key|exact E2| |exact Ht].
      exact N1.
    + intros c n [[= -> ->]|Hcn]%elem_of_cons; [|by apply P2].
      exists q. split; [done|]. destruct E2 as [_ K2]. apply K2; [done|].
      apply is_prov_kept. by exists puri, nnuri, q.
Qed.

End Rewrite_facts.

(** C1, as the code has it.  When no assigned identifier is a candidate
    or a label node, no renamed label node is a candidate, and every
    candidate compresses, the pass returns and in its graph no triple has
    a candidate as subject or object, the provenance triple of every
    candidate is present, one provenance triple was added per candidate,
    and, when the input had no triple under the provenance predicate,
    every such triple of the result is the provenance triple of a
    candidate. *)
Theorem C1_rewrite_pass valid_url pm mapping g :
  let label_objects := subjects g RDF_type SKOSXL_Label in
  (∀ c n, (c, n) ∈ mapping →
     (n ∉ mapping.*1)
     ∧ (URIRef n ∉ label_objects)
     ∧ (∀ o, o ∈ label_objects → replace (str o) c n ∉ mapping.*1)
     ∧ ∃ q, compress valid_url pm safe c = Ok q) →
  ∃ st,
    Rewriter.rewrite valid_url pm mapping g = Ok st
    ∧ (∀ c n t, (c, n) ∈ mapping → t ∈ g_ st →
         subject t ≠ URIRef c ∧ object t ≠ URIRef c)
    ∧ (∀ c n, (c, n) ∈ mapping →
         ∃ q, compress valid_url pm safe c = Ok q ∧ provenance q n ∈ g_ st)
    ∧ added_triples st = Z.of_nat (length mapping)
    ∧ ((∀ t, t ∈ g → predicate t ≠ sourced_from) →
       ∀ t, t ∈ g_ st → predicate t = sourced_from →
            is_provenance valid_url pm mapping t).
Proof.
  intros label_objects H. unfold Rewriter.rewrite. fold label_objects.
  assert (∀ c n, (c, n) ∈ mapping → n ∉ mapping.*1) as H1 by (intros; by eapply H).
  assert (∀ c n, (c, n) ∈ mapping → URIRef n ∉ label_objects) as H2
    by (intros; by eapply H).
  assert (∀ c n o, (c, n) ∈ mapping → o ∈ label_objects →
            replace (str o) c n ∉ mapping.*1) as H3.
  { intros c n o Hin Ho. destruct (H c n Hin) as (_ & _ & Hr & _). by apply Hr. }
  assert (∀ c n, (c, n) ∈ mapping →
            (c, n) ∈ mapping ∧ ∃ q, compress valid_url pm safe c = Ok q) as H4.
  { intros c n Hin. split; [done|]. by destruct (H c n Hin) as (_ & _ & _ & ?). }
  assert (provenance_sound valid_url pm mapping g g) as Hs0.
  { intros t Ht Hp. right. by exists t. }
  destruct (rewrite_loop_edited valid_url pm mapping label_objects g H1 H2 H3 mapping
              {| g_ := g; replaced_triples := 0; added_triples := 0 |} Hs0 H4)
    as (st & Hst & He & Hn & Hp & Ha).
  exists st. split_and!; [done|done|done|simpl in Ha; lia|].
  intros Hnone t Ht Hpred.
  pose proof (edited_sound valid_url pm mapping label_objects g _ _ _ He Hs0) as Hs.
  destruct (Hs t Ht Hpred) as [?|(t0 & Ht0 & Hp0)]; [done|].
  by destruct (Hnone t0 Ht0).
Qed.


Lemma C1_witness :
  let pm := curie_converter (store demo_minter) in
  ∃ st,
    Rewriter.rewrite http_url pm demo_assignment demo_graph = Ok st
    ∧ (∀ t, t ∈ g_ st →
         subject t ≠ URIRef demo_concept ∧ object t ≠ URIRef demo_concept)
    ∧ provenance (Some "ex:1") demo_nnuri ∈ g_ st
    ∧ added_triples st = 1.
Proof.
  intros pm.
  assert (elements (subjects demo_graph RDF_type SKOSXL_Label) = [demo_label])
    as Hlabels by (vm_compute; reflexivity).
  destruct (C1_rewrite_pass http_url pm demo_assignment demo_graph)
    as (st & Hst & Hno & Hprov & Hadd & _).
  - intros c n [= -> ->]%list_elem_of_singleton.
    setoid_rewrite <- elem_of_elements. rewrite Hlabels. split_and!.
    + by intros [=]%list_elem_of_singleton.
    + by intros [=]%list_elem_of_singleton.
    + intros o ->%list_elem_of_singleton. by intros [=]%list_elem_of_singleton.
    + eexists. vm_compute. reflexivity.
  - exists st. split_and!; [done| | |done].
    + intros t. apply (Hno demo_concept demo_nnuri). by left.
    + destruct (Hprov demo_concept demo_nnuri) as (q & Hq & Hin); [by left|].
      replace q with (Some "ex:1") in Hin; [done|].
      vm_compute in Hq. by injection Hq.
Defined.

(** C1 as stated fails: the pass rewrites the triples that have a
    candidate as subject or object and no other.  A triple that has the
    candidate as its predicate is still in the graph after the pass. *)
Lemma C1_counterexample :
  let pm := curie_converter (store demo_minter) in
  let t := (URIRef "http://example.org/a", URIRef demo_concept,
            URIRef "http://example.org/b") in
  ∃ st,
    Rewriter.rewrite http_url pm demo_assignment demo_predicate_graph = Ok st
    ∧ t ∈ g_ st ∧ predicate t = URIRef demo_concept.
Proof.
  intros pm t.
  assert (match Rewriter.rewrite http_url pm demo_assignment demo_predicate_graph with
          | Ok st => bool_decide (t ∈ g_ st)
          | Raise _ => false
          end = true) as Hb by (vm_compute; reflexivity).
  destruct (Rewriter.rewrite http_url pm demo_assignment demo_predicate_graph)
    as [st|]; [|discriminate].
  exists st. split; [done|]. split; [|done]. by apply bool_decide_eq_true in Hb.
Qed.
(** * Further properties *)

(** ** [Converter2]: what the strict operations accept and return *)

Lemma split_colon_Some v p i :
  split_colon v = Some (p, i) → v = format_curie p i ∧ has_colon p = false.
Proof.
  revert p. induction v as [|a v IH]; intros p; simpl; [done|].
  destruct (decide (a = ":"%char)) as [->|Hne].
  - by intros [= <- <-].
  - destruct (split_colon v) as [[p' i']|] eqn:Hs; simpl; [|done].
    intros [= <- <-]. destruct (IH p' eq_refl) as [-> Hc]. split; [done|].
    simpl. by rewrite decide_False.
Qed.

Section Converter2_more.
Variable valid_url : string → bool.
Variable pm : prefix_map.

(** [validate] raises nothing but [InvalidURI] and [UnknownPrefix], each
    carrying the value it was given. *)
Lemma validate_Raise v e :
  validate valid_url pm v = Raise e → e = InvalidURI v ∨ e = UnknownPrefix v.
Proof.
  unfold validate. destruct (uri_prefix_known pm v).
  - destruct (valid_url v); [done|]. intros [= <-]. by left.
  - destruct (curie_prefix_known pm v); [done|]. intros [= <-]. by right.
Qed.

Lemma expand_safe_Raise x e :
  expand_safe valid_url pm x = Raise e → e = InvalidURI x ∨ e = UnknownPrefix x.
Proof.
  destruct (validate valid_url pm x) as [[]|e'] eqn:Hv.
  - unfold expand_safe. by rewrite Hv.
  - destruct (expand_safe_curie_some valid_url pm x Hv) as (u & _ & ->). done.
  - unfold expand_safe. rewrite Hv. simpl. intros [= <-].
    by apply validate_Raise.
Qed.

Lemma expand_safe_uri x :
  validate valid_url pm x = Ok uri → expand_safe valid_url pm x = Ok x.
Proof. intros Hv. unfold expand_safe. by rewrite Hv. Qed.

Lemma expand_safe_fast x e :
  validate valid_url pm x = Ok curie →
  expand_safe valid_url pm x = Ok e → expand_fast pm x = e.
Proof.
  intros Hv He.
  destruct (expand_safe_curie_some valid_url pm x Hv) as (u & Hl & Hu).
  assert (u = e) as -> by congruence.
  apply validate_curie in Hv as (_ & p & i & ns & Hs & _).
  unfold expand_fast. rewrite Hl. destruct x; [done|]. done.
Qed.

Lemma compress_safe_fast x q :
  compress_safe valid_url pm x = Ok (Some q) → compress_fast pm x = q.
Proof.
  unfold compress_safe. destruct (validate valid_url pm x) as [[]|] eqn:Hv;
    simpl; [| |done].
  - intros [= Hl]. unfold compress_fast. rewrite Hl.
    unfold lib_compress in Hl.
    destruct (parse_uri pm x) as [[p i]|] eqn:Hp; [|done].
    destruct (nonempty p && nonempty i) eqn:Hne; [|done]. simplify_eq.
    apply andb_prop in Hne as [Hp' Hi].
    apply parse_uri_Some in Hp as (ns & _ & ->).
    rewrite (nonempty_app_r ns i Hi). unfold format_curie.
    by rewrite (nonempty_app_l p _ Hp').
  - intros [= <-]. apply validate_curie in Hv as (Hu & p & i & ns & Hs & _).
    rewrite compress_fast_unregistered by done. done.
Qed.

End Converter2_more.




(** ** [DomainCodes]: what a registry holds and how it is looked up *)

Lemma dc_setitem_entries domain c dc dc' :
  DomainCodes.setitem domain c dc = (Ok (), dc') →
  ∃ n, py_int c = Ok n ∧
    ∀ d code, dc_data dc' !! d = Some code ↔
      dc_data dc !! d = Some code ∨ (d = domain ∧ code = zfmt 2 n).
Proof.
  intros (n & Hc & Hd & [->|(_ & _ & Hnone & _ & ->)])%dc_setitem_Ok;
    exists n; (split; [done|]); intros d code.
  - split; [by left|]. intros [?|[-> ->]]; done.
  - simpl. destruct (decide (d = domain)) as [->|Hne].
    + rewrite lookup_insert_eq, Hnone. split.
      * intros [= <-]. by right.
      * intros [?|[_ ->]]; done.
    + rewrite lookup_insert_ne by done. split; [by left|].
      intros [?|[? _]]; done.
Qed.

Lemma dc_load_entries l dc dc' :
  DomainCodes.load l dc = (Ok (), dc') →
  ∀ d code, dc_data dc' !! d = Some code ↔
    dc_data dc !! d = Some code
    ∨ ∃ v n, (d, v) ∈ l ∧ py_int v = Ok n ∧ code = zfmt 2 n.
Proof.
  revert dc. induction l as [|[d0 c0] l IH]; intros dc; simpl.
  - intros [= <-] d code. split; [by left|].
    intros [?|(v & n & []%elem_of_nil & _)]. done.
  - destruct (DomainCodes.setitem d0 c0 dc) as [[[]|e] dc1] eqn:Hs; [|done].
    intros Hl d code. rewrite (IH _ Hl).
    destruct (dc_setitem_entries _ _ _ _ Hs) as (n0 & Hc0 & H1). rewrite H1.
    split.
    + intros [[?|[-> ->]]|(v & n & Hin & Hv & ->)].
      * by left.
      * right. exists c0, n0. split_and!; [left|done|done].
      * right. exists v, n. split_and!; [by right|done|done].
    + intros [?|(v & n & [[= <- <-]|Hin]%elem_of_cons & Hv & ->)].
      * left. by left.
      * left. right. split; [done|]. congruence.
      * right. eauto.
Qed.




(** ** [Mapping]: storing, reading back, loading *)

Lemma mapM_result_pure {A B} (f : A → B) (l : list A) :
  mapM (M := result) (λ x, Ok (f x)) l = Ok (f <$> l).
Proof. induction l as [|x l IH]; simpl; [done|]. by rewrite IH. Qed.

(** [get_values] on a key whose record is there. *)
Lemma get_values_record key columns m r :
  data m !! expand_fast (curie_converter m) key = Some r →
  Mapping.get_values key columns m
  = Ok ((λ md, Mapping.compress_fast_opt (curie_converter m)
                 (match r !! md with
                  | Some v => Some v
                  | None => defaults m !! md
                  end)) <$> columns).
Proof.
  intros Hr. unfold Mapping.get_values. rewrite Hr.
  apply (mapM_result_pure (λ md, Mapping.compress_fast_opt (curie_converter m)
           (match r !! md with Some v => Some v | None => defaults m !! md end))).
Qed.

Lemma elide_defaults_lookup m (d : record) md :
  Mapping.elide_defaults m d !! md
  = match d !! md with
    | Some v => if decide (defaults m !! md = Some v) then None else Some v
    | None => None
    end.
Proof.
  unfold Mapping.elide_defaults.
  destruct (d !! md) as [v|] eqn:Hd.
  - case_decide as Hdef.
    + apply map_lookup_filter_None. right. intros v' Hv'. simpl.
      assert (v' = v) as -> by congruence. by intros [].
    + apply map_lookup_filter_Some. done.
  - apply map_lookup_filter_None. by left.
Qed.

Lemma fast_set_fold_frame l m :
  let m' := foldl (λ m' kv, Mapping.fast_set kv.1 kv.2 m') m l in
  curie_converter m' = curie_converter m ∧ defaults m' = defaults m
  ∧ ∀ ek, (∀ k it, (k, it) ∈ l → expand_fast (curie_converter m) k ≠ ek) →
          data m' !! ek = data m !! ek.
Proof.
  revert m. induction l as [|[k v] l IH]; intros m; simpl; [done|].
  destruct (IH (Mapping.fast_set k v m)) as (Hc & Hd & Hl). simpl in *.
  split_and!; [done..|]. intros ek Hne. rewrite Hl.
  - simpl. rewrite lookup_insert_ne; [done|]. apply (Hne k v). by left.
  - intros k' it' Hin. apply (Hne k' it'). by right.
Qed.

Lemma fast_set_frame k it m m0 :
  curie_converter m = curie_converter m0 → defaults m = defaults m0 →
  data (Mapping.fast_set k it m) !! expand_fast (curie_converter m0) k
  = data (Mapping.fast_set k it m0) !! expand_fast (curie_converter m0) k.
Proof.
  intros Hc Hd. unfold Mapping.fast_set, Mapping.elide_defaults. simpl.
  rewrite Hc, Hd. by rewrite !lookup_insert_eq.
Qed.

Section Mapping_more.
Variable valid_url : string → bool.

(** A [set] leaves the converter, the defaults and every stored record
    as they were. *)
Lemma set_frame key it m r m1 :
  Mapping.set valid_url key it m = (r, m1) →
  curie_converter m1 = curie_converter m ∧ defaults m1 = defaults m
  ∧ ∀ k rec, data m !! k = Some rec → data m1 !! k = Some rec.
Proof.
  unfold Mapping.set.
  destruct (expand valid_url (curie_converter m) safe key) as [ekey|];
    [|by intros [= _ <-]].
  destruct (Mapping.set_value valid_url m it) as [value|]; [|by intros [= _ <-]].
  destruct (data m !! ekey) as [old|] eqn:Hold.
  - case_decide; by intros [= _ <-].
  - intros [= _ <-]. simpl. split_and!; [done..|]. intros k rec Hk.
    rewrite lookup_insert_ne; [done|]. congruence.
Qed.

Lemma set_value_frame m m' it :
  curie_converter m' = curie_converter m → defaults m' = defaults m →
  Mapping.set_value valid_url m' it = Mapping.set_value valid_url m it.
Proof.
  intros Hc Hd. unfold Mapping.set_value, Mapping.elide_defaults.
  by rewrite Hc, Hd.
Qed.

(** The fast loader is a fold of [_fast_set]. *)
Lemma load_mapping_fast l m :
  MappingInit.load_mapping valid_url false l m
  = Ok (foldl (λ m' kv, Mapping.fast_set kv.1 kv.2 m') m l).
Proof.
  revert m. induction l as [|[k v] l IH]; intros m; simpl; [done|].
  by rewrite IH.
Qed.

(** How [get_uri] fails. *)
Lemma get_uri_Raise key m e :
  Mapping.get_uri valid_url key m = Raise e →
  expand valid_url (curie_converter m) safe key = Raise e
  ∨ ∃ ekey, expand valid_url (curie_converter m) safe key = Ok ekey
      ∧ (is_KeyError e = true ∧ (∀ k, e ≠ UnknownPrefix k)
         ∨ ∃ c, Mapping.getitem valid_url key m = Ok c
                ∧ expand valid_url (curie_converter m) safe c = Raise e).
Proof.
  unfold Mapping.get_uri, Mapping.getitem.
  destruct (expand valid_url (curie_converter m) safe key) as [ekey|e'] eqn:He;
    simpl; [|intros [= <-]; by left].
  intros H. right. exists ekey. split; [done|].
  destruct (data m !! ekey) as [r|]; simpl in H.
  - destruct (r !! "object_id") as [oid|]; simpl in H.
    + right. eauto.
    + left. injection H as <-. split; [done|]. by intros k.
  - left. injection H as <-. split; [done|]. by intros k.
Qed.

End Mapping_more.









(** ** The table of prefixes: construction and [populate_prefixes] *)

Lemma add_prefix_Ok p ns pm pm' :
  add_prefix p ns pm = Ok pm' →
  pm !! p = None ∧ (∀ p', pm !! p' ≠ Some ns) ∧ pm' = <[p := ns]> pm.
Proof.
  unfold add_prefix. case_decide as Hp; [done|]. case_decide as Hns; [done|].
  intros [= <-]. split_and!; [|intros p' Hp'|done].
  - by apply eq_None_not_Some.
  - apply Hns. by exists p', ns.
Qed.

Lemma add_prefix_fresh p ns pm :
  pm !! p = None → (∀ p', pm !! p' ≠ Some ns) →
  add_prefix p ns pm = Ok (<[p := ns]> pm).
Proof.
  intros Hp Hns. unfold add_prefix.
  rewrite decide_False by (rewrite Hp; by intros []).
  rewrite decide_False; [done|]. intros (p' & ns' & Hp' & ->). by apply (Hns p').
Qed.

(** *** [str.replace] removing a suffix *)

Lemma replace_go_skip old new s :
  replace_go old new (String.length s) s = "".
Proof. induction s as [|a s IH]; simpl; [done|]. apply IH. Qed.

Lemma strip_prefix_self s : strip_prefix s s = Some "".
Proof. induction s as [|a s IH]; simpl; [done|]. by rewrite decide_True. Qed.

(** When [i] occurs in [ns ++ i] only at its end, removing every
    occurrence of [i] leaves [ns]. *)
Lemma replace_only_suffix ns i :
  i ≠ "" →
  (∀ a b, ns +:+ i = a +:+ i +:+ b → a = ns) →
  replace (ns +:+ i) i "" = ns.
Proof.
  intros Hi. destruct i as [|c i']; [done|]. clear Hi. unfold replace.
  induction ns as [|a ns IH]; intros Honly.
  - simpl. rewrite decide_True by done. rewrite strip_prefix_self. simpl.
    rewrite Nat.sub_0_r. apply replace_go_skip.
  - change (String a ns +:+ String c i') with (String a (ns +:+ String c i')).
    cbn [replace_go].
    destruct (strip_prefix (String c i') (String a (ns +:+ String c i')))
      as [b|] eqn:Hs.
    + apply strip_prefix_Some in Hs.
      specialize (Honly "" b). simpl in Honly. by specialize (Honly Hs).
    + f_equal. apply IH. intros a' b H.
      assert (String a a' = String a ns) as Heq.
      { apply (Honly (String a a') b).
        change (String a (ns +:+ String c i')
                = String a (a' +:+ String c i' +:+ b)). by rewrite H. }
      by injection Heq.
Qed.

(** Exposes the first character of an appended string in [H]. *)
Ltac app_head H :=
  repeat match type of H with
         | context [String ?c ?a +:+ ?r] =>
             change (String c a +:+ r) with (String c (a +:+ r)) in H
         | context [EmptyString +:+ ?r] => change (EmptyString +:+ r) with r in H
         end.

Section Prefix_more.
Variable valid_url : string → bool.

Lemma populate_prefixes_frame public uri_list m r m' :
  Mapping.populate_prefixes valid_url public uri_list m = (r, m') →
  data m' = data m ∧ defaults m' = defaults m
  ∧ (∀ p ns, curie_converter m !! p = Some ns → curie_converter m' !! p = Some ns)
  ∧ (∀ p ns, curie_converter m' !! p = Some ns →
       curie_converter m !! p = Some ns
       ∨ ∃ u i, u ∈ uri_list
           ∧ parse valid_url public u = Ok (Some (p, i))
           ∧ ns = replace u i "")
  ∧ (∀ k, r ≠ Raise (UnknownPrefix k)).
Proof.
  revert m. induction uri_list as [|u rest IH]; intros m; simpl.
  - intros [= <- <-]. split_and!; [done..|by left|done].
  - destruct (parse valid_url public u) as [[[p i]|]|e] eqn:Hp.
    + case_decide as Hknown.
      * intros H. destruct (IH _ H) as (Hd & Hdf & Hold & Hnew & Hr).
        split_and!; [done..| |done].
        intros p' ns' H'. destruct (Hnew _ _ H') as [?|(u' & i' & ? & ? & ?)];
          [by left|]. right. exists u', i'. split_and!; [by right|done..].
      * destruct (add_prefix p (replace u i "") (curie_converter m))
          as [pm'|e] eqn:Ha.
        -- apply add_prefix_Ok in Ha as (Hnone & _ & ->).
           intros H. destruct (IH _ H) as (Hd & Hdf & Hold & Hnew & Hr).
           simpl in *. split_and!; [done..| | |done].
           ++ intros p' ns' H'. apply Hold. rewrite lookup_insert_ne; [done|].
              congruence.
           ++ intros p' ns' H'.
              destruct (Hnew _ _ H') as [H1|(u' & i' & ? & ? & ?)].
              ** destruct (decide (p' = p)) as [->|Hne].
                 --- rewrite lookup_insert_eq in H1. injection H1 as <-.
                     right. exists u, i. split_and!; [by left|done..].
                 --- rewrite lookup_insert_ne in H1 by done. by left.
              ** right. exists u', i'. split_and!; [by right|done..].
        -- intros [= <- <-]. split_and!; [done..|by left|].
           unfold add_prefix in Ha. repeat case_decide; by simplify_eq.
    + intros [= <- <-]. split_and!; [done..|by left|done].
    + assert (∀ k, e = UnknownPrefix k →
        Mapping.populate_prefixes valid_url public rest m = (r, m') →
        data m' = data m ∧ defaults m' = defaults m
        ∧ (∀ p ns, curie_converter m !! p = Some ns →
                   curie_converter m' !! p = Some ns)
        ∧ (∀ p ns, curie_converter m' !! p = Some ns →
             curie_converter m !! p = Some ns
             ∨ ∃ u0 i, u0 ∈ u :: rest
                 ∧ parse valid_url public u0 = Ok (Some (p, i))
                 ∧ ns = replace u0 i "")
        ∧ (∀ k, r ≠ Raise (UnknownPrefix k))) as Hskip.
      { intros k _ H. destruct (IH _ H) as (Hd & Hdf & Hold & Hnew & Hr).
        split_and!; [done..| |done].
        intros p' ns' H'. destruct (Hnew _ _ H') as [?|(u' & i' & ? & ? & ?)];
          [by left|]. right. exists u', i'. split_and!; [by right|done..]. }
      unfold parse in Hp.
      destruct (validate valid_url public u) as [[]|e'] eqn:Hv; simpl in Hp.
      * done.
      * apply validate_curie in Hv as (_ & p & i & ns & Hs & _).
        unfold parse_curie in Hp. by rewrite Hs in Hp.
      * injection Hp as <-. apply validate_Raise in Hv as [->| ->].
        -- intros [= <- <-]. split_and!; [done..|by left|done].
        -- by apply (Hskip u).
Qed.

Lemma load_mapping_frame safe_load l m m' :
  MappingInit.load_mapping valid_url safe_load l m = Ok m' →
  curie_converter m' = curie_converter m ∧ defaults m' = defaults m
  ∧ preamble_domain_codes m' = preamble_domain_codes m
  ∧ preamble_other m' = preamble_other m.
Proof.
  revert m. induction l as [|[k v] l IH]; intros m; simpl.
  - by intros [= <-].
  - destruct safe_load.
    + destruct (Mapping.set valid_url k v m) as [[[]|e] m1] eqn:Hset; [|done].
      intros H. destruct (IH _ H) as (-> & -> & -> & ->).
      apply set_Ok in Hset as (? & ? & _ & _ & _ & [->|[_ ->]]); done.
    + intros H. by destruct (IH _ H) as (-> & -> & -> & ->).
Qed.

Lemma add_missing_prefixes_spec l pm pm' :
  MappingInit.add_missing_prefixes l pm = Ok pm' →
  (∀ p ns, pm !! p = Some ns → pm' !! p = Some ns)
  ∧ (∀ p ns, (p, ns) ∈ l → is_Some (pm' !! p))
  ∧ (∀ p ns, pm' !! p = Some ns → pm !! p = Some ns ∨ (p, ns) ∈ l).
Proof.
  revert pm. induction l as [|[p0 u0] l IH]; intros pm; simpl.
  - intros [= <-]. split_and!; [done| |by left]. intros p ns []%elem_of_nil.
  - case_decide as Hknown.
    + intros H. destruct (IH _ H) as (Hold & Hall & Hnew). split_and!.
      * done.
      * intros p ns [[= -> ->]|Hin]%elem_of_cons; [|by eapply Hall].
        destruct Hknown as [ns Hns]. by rewrite (Hold _ _ Hns).
      * intros p ns Hp. destruct (Hnew _ _ Hp); [by left|right; by right].
    + destruct (add_prefix p0 u0 pm) as [pm1|] eqn:Ha; [|done]. simpl.
      apply add_prefix_Ok in Ha as (Hnone & _ & ->).
      intros H. destruct (IH _ H) as (Hold & Hall & Hnew). split_and!.
      * intros p ns Hp. apply Hold. rewrite lookup_insert_ne; [done|]. congruence.
      * intros p ns [[= -> ->]|Hin]%elem_of_cons; [|by eapply Hall].
        rewrite (Hold p0 u0); [done|]. by rewrite lookup_insert_eq.
      * intros p ns Hp. destruct (Hnew _ _ Hp) as [H1|?]; [|right; by right].
        destruct (decide (p = p0)) as [->|Hne].
        -- rewrite lookup_insert_eq in H1. injection H1 as <-. right. by left.
        -- rewrite lookup_insert_ne in H1 by done. by left.
Qed.

End Prefix_more.






(** ** Reading the rows of a file *)

Lemma elem_of_key_ind header key i :
  (key, i) ∈ MappingInit.key_ind header ↔
  header !! i = Some key ∧ key ≠ "subject_id".
Proof.
  unfold MappingInit.key_ind. rewrite list_elem_of_filter. simpl.
  rewrite elem_of_lookup_imap. split.
  - intros [Hne (j & y & [= <- <-] & Hj)]. done.
  - intros [Hi Hne]. split; [done|]. by exists i, key.
Qed.

Lemma subject_index_Some header subj_i :
  MappingInit.subject_index header = Some subj_i →
  header !! subj_i = Some "subject_id".
Proof.
  unfold MappingInit.subject_index.
  destruct (list_find _ header) as [[i x]|] eqn:Hf; simpl; [|done].
  intros [= <-]. by apply list_find_Some in Hf as (Hi & -> & _).
Qed.

Lemma subject_index_None header :
  "subject_id" ∉ header → MappingInit.subject_index header = None.
Proof.
  intros Hnot. unfold MappingInit.subject_index.
  destruct (list_find _ header) as [[i x]|] eqn:Hf; simpl; [|done].
  apply list_find_Some in Hf as (Hi & -> & _).
  destruct Hnot. by eapply list_elem_of_lookup_2.
Qed.

Lemma subject_index_is_Some header :
  "subject_id" ∈ header → is_Some (MappingInit.subject_index header).
Proof.
  intros Hin. unfold MappingInit.subject_index.
  destruct (list_find (λ key, key = "subject_id") header) as [[i x]|] eqn:Hf;
    simpl; [done|].
  apply list_find_None in Hf. rewrite Forall_forall in Hf. by destruct (Hf _ Hin).
Qed.

(** The dictionary comprehension of line 321 as a fold. *)
Local Abbreviation row_step vals :=
  (λ (acc : option record) '(key, i),
     d ← acc; v ← vals !! i; Some (<[key := v]> d)).

Lemma row_fold_None (vals : list string) (ki : list (string * nat)) :
  foldl (row_step vals) None ki = None.
Proof. induction ki as [|[key i] ki IH]; simpl; [done|]. apply IH. Qed.

Lemma row_fold_short (vals : list string) (ki : list (string * nat)) acc key i :
  (key, i) ∈ ki → vals !! i = None → foldl (row_step vals) acc ki = None.
Proof.
  revert acc. induction ki as [|[key0 i0] ki IH]; intros acc.
  - by intros ?%elem_of_nil.
  - intros [[= <- <-]|Hin]%elem_of_cons Hnone; cbn [foldl].
    + destruct acc as [d|]; simpl; rewrite ?Hnone; simpl; apply row_fold_None.
    + by apply IH.
Qed.

Lemma row_fold_Some (vals : list string) (ki : list (string * nat)) d0 :
  (∀ key i, (key, i) ∈ ki → is_Some (vals !! i)) →
  (∀ key i j, (key, i) ∈ ki → (key, j) ∈ ki → i = j) →
  ∃ d, foldl (row_step vals) (Some d0) ki = Some d
       ∧ (∀ key i, (key, i) ∈ ki → d !! key = vals !! i)
       ∧ (∀ key, key ∉ ki.*1 → d !! key = d0 !! key).
Proof.
  revert d0. induction ki as [|[key0 i0] ki IH]; intros d0 Hlong Hfun.
  - exists d0. split_and!; [done| |done]. by intros key i ?%elem_of_nil.
  - destruct (Hlong key0 i0) as [v0 Hv0]; [left|].
    destruct (IH (<[key0 := v0]> d0)) as (d & Hd & Hin & Hout).
    { intros key i H. apply (Hlong key i). by right. }
    { intros key i j Hi Hj. apply (Hfun key); by right. }
    exists d. split_and!.
    + cbn [foldl]. simpl. rewrite Hv0. simpl. exact Hd.
    + intros key i [[= -> ->]|Hki]%elem_of_cons; [|by apply Hin].
      destruct (decide (key0 ∈ ki.*1)) as [Hk|Hk].
      * apply list_elem_of_fmap in Hk as ([key1 j] & -> & Hj). simpl in *.
        rewrite (Hin _ _ Hj). f_equal. apply (Hfun key1); [by right|left].
      * rewrite (Hout _ Hk), lookup_insert_eq. done.
    + intros key Hk. rewrite fmap_cons, not_elem_of_cons in Hk.
      destruct Hk as [Hne Hk]. simpl in Hne.
      rewrite (Hout _ Hk), lookup_insert_ne; done.
Qed.

Section File_more.
Variable valid_url : string → bool.

Lemma load_rows_app safe_load subj_i ki line_nr rows1 rows2 m :
  MappingInit.load_rows valid_url safe_load subj_i ki line_nr (rows1 ++ rows2) m
  = match MappingInit.load_rows valid_url safe_load subj_i ki line_nr rows1 m with
    | Loaded m1 =>
        MappingInit.load_rows valid_url safe_load subj_i ki
          (line_nr + Z.of_nat (length rows1)) rows2 m1
    | other => other
    end.
Proof.
  revert line_nr m. induction rows1 as [|vals rows1 IH]; intros line_nr m.
  - simpl. by rewrite Z.add_0_r.
  - cbn [app MappingInit.load_rows length].
    destruct (MappingInit.extract_row subj_i ki vals) as [[k d]|]; [|done].
    destruct safe_load.
    + destruct (Mapping.set valid_url k (ItemDict d) m) as [[[]|e] m1]; [|done].
      rewrite IH. by replace (line_nr + 1 + Z.of_nat (length rows1))
        with (line_nr + Z.of_nat (S (length rows1))) by lia.
    + rewrite IH. by replace (line_nr + 1 + Z.of_nat (length rows1))
        with (line_nr + Z.of_nat (S (length rows1))) by lia.
Qed.

End File_more.




(** ** The minter: serials, stability, domain code *)

Section Minter_more.
Variable valid_url : string → bool.


(** After a [get] that returned, the key reads back as returned. *)
Lemma nn_get_then_getitem key st r st1 :
  NNURIs.get valid_url key st = (Ok r, st1) →
  NNURIs.getitem valid_url key st1 = Ok r.
Proof.
  intros [[Hg ->]|(ekey & n & u & e & Hk & Hd & _ & Hu & Hin & He & -> & ->)]%nn_get_Ok;
    [done|].
  unfold NNURIs.getitem, Mapping.getitem. simpl.
  simpl in Hk. rewrite Hk. simpl. rewrite lookup_insert_eq. simpl.
  by rewrite lookup_singleton_eq.
Qed.

Lemma nn_getitem_persists key st st' r :
  curie_converter (store st') = curie_converter (store st) →
  (∀ k rec, data (store st) !! k = Some rec → data (store st') !! k = Some rec) →
  NNURIs.getitem valid_url key st = Ok r →
  NNURIs.getitem valid_url key st' = Ok r.
Proof.
  intros Hc Hd (ekey & rec & oid & Hk & Hrec & Hoid & ->)%nn_getitem_Ok.
  unfold NNURIs.getitem, Mapping.getitem. rewrite Hc, Hk. simpl.
  by rewrite (Hd _ _ Hrec), Hoid.
Qed.


(** When every serial from the counter up to the ceiling is in use, the
    loop stops at the last one with the assertion. *)
Lemma skip_in_use_ceiling fuel st code :
  domain_code_ st = Some code →
  nextNNID_ st < maxID_ st →
  maxID_ st - nextNNID_ st ≤ Z.of_nat fuel →
  (∀ k, nextNNID_ st ≤ k < maxID_ st →
        NN_domain +:+ code +:+ zfmt 6 k ∈ NNURIs_ st) →
  NNURIs.skip_in_use fuel st
  = (Raise (AssertionError MintCeiling), NNURIs.with_next st (maxID_ st - 1)).
Proof.
  revert st. induction fuel as [|fuel IH]; intros st Hcode Hlt Hfuel Hall;
    [simpl in Hfuel; lia|].
  cbn [NNURIs.skip_in_use]. unfold NNURIs.format_NNURI. rewrite Hcode. simpl.
  rewrite decide_True by (apply Hall; lia).
  destruct (nextNNID_ st + 1 <? maxID_ st) eqn:Hnext; simpl.
  - apply Z.ltb_lt in Hnext.
    rewrite (IH (NNURIs.with_next st (nextNNID_ st + 1))); simpl; try done; try lia.
    intros k Hk. apply Hall. lia.
  - apply Z.ltb_ge in Hnext.
    replace (maxID_ st - 1) with (nextNNID_ st) by lia.
    by rewrite with_next_same.
Qed.

End Minter_more.








(** ** The minter and its domain code *)

Lemma domain_codes_init_valid l dc :
  DomainCodes.init l = Ok dc → registry_valid dc.
Proof.
  unfold DomainCodes.init.
  destruct (DomainCodes.load (default [] l) DomainCodes.empty)
    as [[[]|e] dc1] eqn:Hl; [|done].
  intros [= <-]. by eapply registry_valid_load; [apply registry_valid_empty|].
Qed.

(** In a registry as [__setitem__] builds them, the code of a domain
    looks the domain up. *)
Lemma get_domain_of_code dc d code :
  registry_valid dc → dc_data dc !! d = Some code →
  DomainCodes.get_domain (PyStr code) dc = Ok d.
Proof.
  intros [Hcons Hval] Hd. destruct (Hval _ _ Hd) as (_ & n & _ & ->).
  unfold DomainCodes.get_domain.
  rewrite (format_domain_code_py_int _ _ (py_int_zfmt 2 n)). simpl.
  by rewrite (proj1 (Hcons _ _) Hd).
Qed.

Lemma dc_getitem_Ok d dc code :
  DomainCodes.getitem d dc = Ok code → dc_data dc !! d = Some code.
Proof.
  unfold DomainCodes.getitem. destruct (dc_data dc !! d); [|done]. by intros [= ->].
Qed.

(** What [__init__] settles as domain code is the code of a registered
    domain, the given one when a domain was given. *)
Lemma settle_domain_code_Some domain domain_code dc code dc' :
  registry_valid dc →
  NNURIs.settle_domain_code domain domain_code dc = Ok (Some code, dc') →
  ∃ d, registry_valid dc' ∧ dc_data dc' !! d = Some code
       ∧ ∀ s, domain = Some s → s ≠ "" → d = s.
Proof.
  intros Hvalid. unfold NNURIs.settle_domain_code.
  assert (∀ s' : string,
    (if decide (is_Some (reverse_map dc !! s')) then Ok (Some s', dc)
     else Raise (AssertionError DomainCodeNotRegistered)) = Ok (Some code, dc') →
    ∃ d, registry_valid dc' ∧ dc_data dc' !! d = Some code) as Hcode.
  { intros s'. case_decide as Hin; [|intros [=]].
    intros [= <- <-]. destruct Hin as [d Hd]. exists d.
    split; [done|]. by apply Hvalid. }
  assert (∀ s : string,
    (DomainCodes.get_code s dc ≫= λ c, Ok (Some c, dc)) = Ok (Some code, dc') →
    registry_valid dc' ∧ dc_data dc' !! s = Some code) as Hdomain.
  { intros s. destruct (DomainCodes.get_code s dc) as [c|] eqn:Hg; [|intros [=]].
    simpl. intros [= <- <-]. split; [done|]. by apply dc_getitem_Ok. }
  destruct domain as [[|a s]|], domain_code as [v|]; simpl.
  - (* an empty domain, a code *)
    destruct (truthy v); [|intros [=]]. destruct v as [n|s']; [intros [=]|].
    intros (d & ? & ?)%Hcode. exists d. split_and!; [done..|].
    by intros s [= <-].
  - intros [=].
  - (* a domain, a code *)
    destruct (truthy v).
    + destruct (DomainCodes.setitem (String a s) v dc) as [[[]|e] dc1] eqn:Hs;
        [|intros [=]].
      destruct (DomainCodes.getitem (String a s) dc1) as [c|] eqn:Hg;
        [|intros [=]].
      simpl. intros [= <- <-]. exists (String a s). split_and!.
      * by eapply registry_valid_setitem.
      * by apply dc_getitem_Ok.
      * by intros s' [= <-] _.
    + intros [? ?]%Hdomain. exists (String a s). split_and!; [done..|].
      by intros s' [= <-] _.
  - (* a domain, no code *)
    intros [? ?]%Hdomain. exists (String a s). split_and!; [done..|].
    by intros s' [= <-] _.
  - (* no domain, a code *)
    destruct (truthy v); [|intros [=]]. destruct v as [n|s']; [intros [=]|].
    intros (d & ? & ?)%Hcode. exists d. split_and!; [done..|]. by intros s [=].
  - intros [=].
Qed.

Lemma settle_domain_code_None domain domain_code dc dc' :
  NNURIs.settle_domain_code domain domain_code dc = Ok (None, dc') →
  match domain with Some s => s = "" | None => True end
  ∧ match domain_code with Some v => truthy v = false | None => True end.
Proof.
  unfold NNURIs.settle_domain_code.
  destruct domain as [[|a s]|], domain_code as [v|]; simpl; try done.
  - destruct (truthy v) eqn:Hv; [|done].
    destruct v as [n|s']; [done|]. by case_decide.
  - destruct (truthy v).
    + destruct (DomainCodes.setitem _ _ _) as [[[]|e] dc1]; [|done].
      by destruct (DomainCodes.getitem _ _).
    + by destruct (DomainCodes.get_code _ _).
  - by destruct (DomainCodes.get_code _ _).
  - destruct (truthy v) eqn:Hv; [|done].
    destruct v as [n|s']; [done|]. by case_decide.
Qed.




(** ** The layout of a saved file *)


